(** * Kiosk: the comment queue service and the ticket service

    A shallow embedding of [services/comment_service.go] (the NATS queue
    dispatcher and its four handlers) and of the ticket service exercised by
    the service tests, with the properties the specification states about
    them. *)

From Stdlib Require Import ZArith List String Ascii Bool Lia.
From stdpp Require Import base tactics option list gmap strings.
Import ListNotations.

Local Open Scope Z_scope.

(** A Go [[]byte]. *)
Abbreviation bytes := (list Byte.byte).

(** ** Go's [time] package: durations are counted in nanoseconds. *)
Module Time.

Definition Duration := Z.
Definition Nanosecond : Duration := 1.
Definition Microsecond : Duration := 1000 * Nanosecond.
Definition Millisecond : Duration := 1000 * Microsecond.
Definition Second : Duration := 1000 * Millisecond.

End Time.

(** ** Go's [context] package, as far as the handlers use it. *)
Module Context.

(** A context is an object of its own ([ctx_id] is its identity) that may
    carry a deadline, an absolute time in nanoseconds. *)
Record Ctx := { ctx_id : nat; ctx_deadline : option Z }.

(** [context.Background()]: never cancelled, no deadline. *)
Definition Background : Ctx := {| ctx_id := 0; ctx_deadline := None |}.

(** [context.WithTimeout(parent, timeout)], called at time [now], when [fresh]
    is the next unused identity: [WithDeadline(parent, now + timeout)], which
    keeps the parent's deadline when that one is earlier. *)
Definition WithTimeout (parent : Ctx) (timeout : Time.Duration)
    (now : Z) (fresh : nat) : Ctx :=
  let d := now + timeout in
  {| ctx_id := fresh;
     ctx_deadline := match ctx_deadline parent with
                     | Some p => Some (Z.min p d)
                     | None => Some d
                     end |}.

End Context.

(** ** The part of [nats.go] the service talks to. *)
Module Nats.

(** [nc.Msg]: the subject it arrived on, the reply subject the sender
    designated, and the payload. *)
Record Msg := { Subject : string; Reply : string; Data : bytes }.

Inductive NatsErr :=
| ErrConnectionClosed
| ErrBadSubject
| ErrBadSubscription
| ErrMsgNoReply
| ErrMsgNotBound.

End Nats.

(** ** [CommentService]: the four queue handlers *)
Module CommentService.
Import Context Nats.

(** [data.ID], the request of load and delete. *)
Record ID := { ID_ID : Z }.

Inductive JsonErr := SyntaxError | UnmarshalTypeError | UnsupportedValue.

(** The four operations a subject is bound to. *)
Inductive Action := Create | Load | Update | Delete.

Section Service.

(** The request, response and entity types of the packages [data] and
    [models], the error type of the package [errors], and the database behind
    the repository: the service uses them through their methods only. *)
Context {CreateCommentRequest UpdateCommentRequest CommentResponse : Type}.
Context {Comment ErrT DB : Type}.

(** What [reply] is given to encode: an [*errors.Type] or a
    [*data.CommentResponse]. *)
Inductive ReplyValue :=
| VError (e : ErrT)
| VComment (r : CommentResponse).

(** What the repository can read and change: the database and the clock (a
    call takes time). *)
Record Backend := { db : DB; clock : Z }.

(** Every call that leaves the handler, in the order it was made. *)
Inductive Event :=
| EvWithTimeout (ctx : Ctx)
| EvCancel (ctx : Ctx)
| EvInsert (ctx : Ctx) (c : Comment)
| EvLoadByID (ctx : Ctx) (id : Z)
| EvUpdate (ctx : Ctx) (c : Comment)
| EvDeleteByID (ctx : Ctx) (id : Z)
| EvRespond (msg : Msg) (payload : bytes) (result : option NatsErr).

Record World := { backend : Backend; nextCtx : nat; trace : list Event }.

(** The collaborators of the handlers. [json.Unmarshal] into a request type
    is a partial decoder ([None] is a non-nil error); [Validate] and the
    repository return [None] for a nil error; [LoadByID] returns the comment
    or the error; [json.Marshal] returns the bytes and the error;
    [msg.Respond] returns the error of the publish. *)
Record Env := {
  json_Unmarshal_CreateCommentRequest : bytes -> option CreateCommentRequest;
  json_Unmarshal_UpdateCommentRequest : bytes -> option UpdateCommentRequest;
  json_Unmarshal_ID : bytes -> option ID;
  CreateCommentRequest_Validate : CreateCommentRequest -> option ErrT;
  UpdateCommentRequest_Validate : UpdateCommentRequest -> option ErrT;
  CreateCommentRequest_AsComment : CreateCommentRequest -> Comment;
  UpdateCommentRequest_AsComment : UpdateCommentRequest -> Comment;
  CommentResponse_LoadFromComment : Comment -> CommentResponse;
  errors_InvalidRequestBody : ErrT;
  commentRepository_Insert : Ctx -> Comment -> Backend -> option ErrT * Backend;
  commentRepository_LoadByID : Ctx -> Z -> Backend -> (Comment + ErrT) * Backend;
  commentRepository_Update : Ctx -> Comment -> Backend -> option ErrT * Backend;
  commentRepository_DeleteByID : Ctx -> Z -> Backend -> option ErrT * Backend;
  json_Marshal : ReplyValue -> bytes * option JsonErr;
  msg_Respond : Msg -> bytes -> option NatsErr
}.

(** A handler is a state transformer over the world. *)
Definition M (A : Type) : Type := World -> A * World.

Definition ret {A} (a : A) : M A := fun w => (a, w).

Definition bind {A B} (m : M A) (k : A -> M B) : M B :=
  fun w => let '(a, w1) := m w in k a w1.

Notation "x <- m ;; k" := (bind m (fun x => k))
  (at level 100, m at next level, right associativity).
Notation "m ;;; k" := (bind m (fun _ => k))
  (at level 100, right associativity).

Definition emit (ev : Event) : M unit :=
  fun w => (tt, {| backend := backend w; nextCtx := nextCtx w;
                   trace := trace w ++ [ev] |}).

Variable env : Env.

(** [ctx, cancel := context.WithTimeout(parent, timeout)]. *)
Definition context_WithTimeout (parent : Ctx) (timeout : Time.Duration) : M Ctx :=
  fun w =>
    let ctx := WithTimeout parent timeout (clock (backend w)) (nextCtx w) in
    (ctx, {| backend := backend w; nextCtx := S (nextCtx w);
             trace := trace w ++ [EvWithTimeout ctx] |}).

(** The deferred [cancel()]. *)
Definition cancel (ctx : Ctx) : M unit := emit (EvCancel ctx).

(** A repository call: recorded, then run on the backend. *)
Definition call {A} (ev : Event) (f : Backend -> A * Backend) : M A :=
  fun w =>
    let '(a, b) := f (backend w) in
    (a, {| backend := b; nextCtx := nextCtx w; trace := trace w ++ [ev] |}).

Definition Insert (ctx : Ctx) (c : Comment) : M (option ErrT) :=
  call (EvInsert ctx c) (commentRepository_Insert env ctx c).

Definition LoadByID (ctx : Ctx) (id : Z) : M (Comment + ErrT) :=
  call (EvLoadByID ctx id) (commentRepository_LoadByID env ctx id).

Definition Update_ (ctx : Ctx) (c : Comment) : M (option ErrT) :=
  call (EvUpdate ctx c) (commentRepository_Update env ctx c).

Definition DeleteByID (ctx : Ctx) (id : Z) : M (option ErrT) :=
  call (EvDeleteByID ctx id) (commentRepository_DeleteByID env ctx id).

(** [msg.Respond(data)]: one publish on the reply subject, whose error is
    returned. *)
Definition Respond (msg : Msg) (data : bytes) : M (option NatsErr) :=
  let r := msg_Respond env msg data in
  emit (EvRespond msg data r) ;;; ret r.

(** [reply, _ := json.Marshal(t); _ = msg.Respond(reply)]. *)
Definition reply (msg : Msg) (t : ReplyValue) : M unit :=
  let '(reply, _) := json_Marshal env t in
  _ <- Respond msg reply ;;
  ret tt.

(** [_ = msg.Respond([]byte(""))]. *)
Definition replyNoContent (msg : Msg) : M unit :=
  _ <- Respond msg [] ;;
  ret tt.

Definition create (msg : Msg) : M unit :=
  ctx <- context_WithTimeout Background (5 * Time.Second) ;;
  match json_Unmarshal_CreateCommentRequest env (Data msg) with
  | None => reply msg (VError (errors_InvalidRequestBody env))
  | Some createCommentRequest =>
    match CreateCommentRequest_Validate env createCommentRequest with
    | Some e => reply msg (VError e)
    | None =>
      r <- Insert ctx (CreateCommentRequest_AsComment env createCommentRequest) ;;
      match r with
      | Some e => reply msg (VError e)
      | None => replyNoContent msg
      end
    end
  end ;;;
  cancel ctx.

Definition load (msg : Msg) : M unit :=
  ctx <- context_WithTimeout Background (5 * Time.Second) ;;
  match json_Unmarshal_ID env (Data msg) with
  | None => reply msg (VError (errors_InvalidRequestBody env))
  | Some id =>
    r <- LoadByID ctx (ID_ID id) ;;
    match r with
    | inr e => reply msg (VError e)
    | inl c => reply msg (VComment (CommentResponse_LoadFromComment env c))
    end
  end ;;;
  cancel ctx.

Definition update (msg : Msg) : M unit :=
  ctx <- context_WithTimeout Background (5 * Time.Second) ;;
  match json_Unmarshal_UpdateCommentRequest env (Data msg) with
  | None => reply msg (VError (errors_InvalidRequestBody env))
  | Some updateCommentRequest =>
    match UpdateCommentRequest_Validate env updateCommentRequest with
    | Some e => reply msg (VError e)
    | None =>
      r <- Update_ ctx (UpdateCommentRequest_AsComment env updateCommentRequest) ;;
      match r with
      | Some e => reply msg (VError e)
      | None => replyNoContent msg
      end
    end
  end ;;;
  cancel ctx.

Definition delete (msg : Msg) : M unit :=
  ctx <- context_WithTimeout Background (5 * Time.Second) ;;
  match json_Unmarshal_ID env (Data msg) with
  | None => reply msg (VError (errors_InvalidRequestBody env))
  | Some id =>
    r <- DeleteByID ctx (ID_ID id) ;;
    match r with
    | Some e => reply msg (VError e)
    | None => replyNoContent msg
    end
  end ;;;
  cancel ctx.

(** The handler [Start] binds to each operation's subject. *)
Definition handler (a : Action) : Msg -> M unit :=
  match a with
  | Create => create
  | Load => load
  | Update => update
  | Delete => delete
  end.

(** *** Reading a run of a handler *)

Definition exec {A} (m : M A) (w : World) : World := snd (m w).

(** The events one run adds to the trace. *)
Definition emitted {A} (m : M A) (w : World) : list Event :=
  drop (length (trace w)) (trace (exec m w)).

(** The replies attempted: each call of [msg.Respond] with the message
    answered and the payload, whatever the call returned. *)
Definition responds (evs : list Event) : list (Msg * bytes) :=
  omap (fun ev => match ev with
                  | EvRespond msg payload _ => Some (msg, payload)
                  | _ => None
                  end) evs.

(** The context a repository call was given. *)
Definition repo_ctx (ev : Event) : option Ctx :=
  match ev with
  | EvInsert ctx _ | EvLoadByID ctx _ | EvUpdate ctx _ | EvDeleteByID ctx _ =>
    Some ctx
  | _ => None
  end.

Definition repo_calls (evs : list Event) : list Ctx := omap repo_ctx evs.

(** The context a run that starts in [w] creates: a new object whose deadline
    is five seconds after the clock at the start. *)
Definition handlerCtx (w : World) : Ctx :=
  {| ctx_id := nextCtx w;
     ctx_deadline := Some (clock (backend w) + 5 * Time.Second) |}.

(** The bytes [reply] sends for a value: what [json.Marshal] returned, its
    error dropped. *)
Definition encode (t : ReplyValue) : bytes := fst (json_Marshal env t).

(** Whether the payload decodes into the request type of the action. *)
Definition decodes (a : Action) (data : bytes) : bool :=
  match a with
  | Create => bool_decide (is_Some (json_Unmarshal_CreateCommentRequest env data))
  | Update => bool_decide (is_Some (json_Unmarshal_UpdateCommentRequest env data))
  | Load | Delete => bool_decide (is_Some (json_Unmarshal_ID env data))
  end.

(** The paths of the specification: decode failure, validation failure,
    storage failure, and success with the loaded comment (load) or with
    nothing to return (create, update, delete). *)
Inductive Path :=
| DecodeFailure
| ValidationFailure (e : ErrT)
| StorageFailure (e : ErrT)
| Success (c : option Comment).

Definition stored (r : option ErrT) : Path :=
  match r with
  | Some e => StorageFailure e
  | None => Success None
  end.

(** The path a message takes in a world, read off the collaborators'
    answers. *)
Definition path_of (a : Action) (msg : Msg) (w : World) : Path :=
  let ctx := handlerCtx w in
  match a with
  | Create =>
    match json_Unmarshal_CreateCommentRequest env (Data msg) with
    | None => DecodeFailure
    | Some r =>
      match CreateCommentRequest_Validate env r with
      | Some e => ValidationFailure e
      | None =>
        stored (fst (commentRepository_Insert env ctx
                       (CreateCommentRequest_AsComment env r) (backend w)))
      end
    end
  | Load =>
    match json_Unmarshal_ID env (Data msg) with
    | None => DecodeFailure
    | Some id =>
      match fst (commentRepository_LoadByID env ctx (ID_ID id) (backend w)) with
      | inr e => StorageFailure e
      | inl c => Success (Some c)
      end
    end
  | Update =>
    match json_Unmarshal_UpdateCommentRequest env (Data msg) with
    | None => DecodeFailure
    | Some r =>
      match UpdateCommentRequest_Validate env r with
      | Some e => ValidationFailure e
      | None =>
        stored (fst (commentRepository_Update env ctx
                       (UpdateCommentRequest_AsComment env r) (backend w)))
      end
    end
  | Delete =>
    match json_Unmarshal_ID env (Data msg) with
    | None => DecodeFailure
    | Some id =>
      stored (fst (commentRepository_DeleteByID env ctx (ID_ID id) (backend w)))
    end
  end.

(** The reply the specification gives each path: the structured error
    encoded, the entity encoded, or the empty body. *)
Definition reply_of (p : Path) : bytes :=
  match p with
  | DecodeFailure => encode (VError (errors_InvalidRequestBody env))
  | ValidationFailure e => encode (VError e)
  | StorageFailure e => encode (VError e)
  | Success (Some c) => encode (VComment (CommentResponse_LoadFromComment env c))
  | Success None => []
  end.

(** A path that ends in the entity (load) or in nothing to return. *)
Definition returns_entity (p : Path) : bool :=
  match p with
  | Success (Some _) => true
  | _ => false
  end.

Definition returns_nothing (p : Path) : bool :=
  match p with
  | Success None => true
  | _ => false
  end.

(** Messages handled one after the other. *)
Definition serve (reqs : list (Action * Msg)) (w : World) : World :=
  foldl (fun w r => exec (handler r.1 r.2) w) w reqs.

(** An event with the publish's result blanked. *)
Definition erase_result (ev : Event) : Event :=
  match ev with
  | EvRespond msg payload _ => EvRespond msg payload None
  | _ => ev
  end.

(** *** Reading a sequence of runs *)

(** The events a sequence of messages adds to the trace. *)
Definition served (reqs : list (Action * Msg)) (w : World) : list Event :=
  drop (length (trace w)) (trace (serve reqs w)).

(** The error [Validate] gives the decoded request of an action. Create and
    update call [Validate]; load and delete have no such call. *)
Definition validation_error (a : Action) (data : bytes) : option ErrT :=
  match a with
  | Create =>
    match json_Unmarshal_CreateCommentRequest env data with
    | Some r => CreateCommentRequest_Validate env r
    | None => None
    end
  | Update =>
    match json_Unmarshal_UpdateCommentRequest env data with
    | Some r => UpdateCommentRequest_Validate env r
    | None => None
    end
  | Load | Delete => None
  end.

(** The repository method an event is a call of, named by the action whose
    handler has that call in its code. *)
Definition repo_kind (ev : Event) : option Action :=
  match ev with
  | EvInsert _ _ => Some Create
  | EvLoadByID _ _ => Some Load
  | EvUpdate _ _ => Some Update
  | EvDeleteByID _ _ => Some Delete
  | _ => None
  end.

(** The replies that went out: the calls of [msg.Respond] that reported no
    error, each with the message answered and the payload. A call that
    reports an error (the message has no reply subject, the connection is
    closed) has published nothing. *)
Definition published (evs : list Event) : list (Msg * bytes) :=
  omap (fun ev => match ev with
                  | EvRespond msg payload None => Some (msg, payload)
                  | _ => None
                  end) evs.

(** Whether [msg.Respond] publishes the payload on the message. *)
Definition publishes (reply : Msg * bytes) : bool :=
  match msg_Respond env reply.1 reply.2 with
  | None => true
  | Some _ => false
  end.

(** The contexts a trace creates, and those it cancels, in order. *)
Definition created_contexts (evs : list Event) : list Ctx :=
  omap (fun ev => match ev with EvWithTimeout ctx => Some ctx | _ => None end) evs.

Definition cancelled_contexts (evs : list Event) : list Ctx :=
  omap (fun ev => match ev with EvCancel ctx => Some ctx | _ => None end) evs.

End Service.

(** The same collaborators, except for the errors [json.Marshal] and
    [msg.Respond] report. *)
Definition with_errors {CreateCommentRequest UpdateCommentRequest CommentResponse
    Comment ErrT DB : Type}
    (env : @Env CreateCommentRequest UpdateCommentRequest CommentResponse
                Comment ErrT DB)
    (marshal_error : ReplyValue (CommentResponse := CommentResponse)
                                (ErrT := ErrT) -> option JsonErr)
    (respond_error : Msg -> bytes -> option NatsErr) :=
  {| json_Unmarshal_CreateCommentRequest := json_Unmarshal_CreateCommentRequest env;
     json_Unmarshal_UpdateCommentRequest := json_Unmarshal_UpdateCommentRequest env;
     json_Unmarshal_ID := json_Unmarshal_ID env;
     CreateCommentRequest_Validate := CreateCommentRequest_Validate env;
     UpdateCommentRequest_Validate := UpdateCommentRequest_Validate env;
     CreateCommentRequest_AsComment := CreateCommentRequest_AsComment env;
     UpdateCommentRequest_AsComment := UpdateCommentRequest_AsComment env;
     CommentResponse_LoadFromComment := CommentResponse_LoadFromComment env;
     errors_InvalidRequestBody := errors_InvalidRequestBody env;
     commentRepository_Insert := commentRepository_Insert env;
     commentRepository_LoadByID := commentRepository_LoadByID env;
     commentRepository_Update := commentRepository_Update env;
     commentRepository_DeleteByID := commentRepository_DeleteByID env;
     json_Marshal := fun t => ((json_Marshal env t).1, marshal_error t);
     msg_Respond := respond_error |}.

Arguments ReplyValue : clear implicits.
Arguments Backend : clear implicits.
Arguments Event : clear implicits.
Arguments World : clear implicits.
Arguments Env : clear implicits.
Arguments Path : clear implicits.

(** *** The dispatcher: [Start], [await], [Stop] *)

(** [*nc.Subscription]: its id on the connection, and the subject, the queue
    group and the handler it binds. *)
Record Subscription := {
  sub_sid : nat;
  sub_subject : string;
  sub_queue : string;
  sub_handler : Action
}.

(** What a goroutine of the dispatcher does next: receive from or send on
    the service's [stop] channel, log, or unsubscribe. *)
Inductive Instr :=
| IRecvStop
| ISendStop
| ILogDebug (text : string)
| IUnsubscribe (sub : Subscription).

(** A goroutine is the code it still has to run. *)
Definition Goroutine := list Instr.

(** A channel of [struct{}]: its capacity and the number of values it
    holds. *)
Record Chan := { chan_cap : nat; chan_len : nat }.

(** [make(chan struct{}, cap)]; [make(chan struct{})] is [make_chan 0]. *)
Definition make_chan (cap : nat) : Chan := {| chan_cap := cap; chan_len := 0 |}.

(** The connection's subscriptions, the goroutines around one service, and
    the service's [stop] channel. *)
Record System := {
  subscriptions : list Subscription;
  nextSid : nat;
  goroutines : list Goroutine;
  stop : Chan
}.

(** [NewCommentService], on a connection that holds [subs] and numbers its
    next subscription [sid]: the [stop] channel is made without a buffer. *)
Definition NewCommentService (subs : list Subscription) (sid : nat) : System :=
  {| subscriptions := subs; nextSid := sid; goroutines := [];
     stop := make_chan 0 |}.

(** The four subjects, queue groups and handlers, in the order
    [Start] binds them. *)
Definition bindings : list (string * string * Action) :=
  [("kiosk.comments.create", "kiosk.comments.create_group", Create);
   ("kiosk.comments.load", "kiosk.comments.load_group", Load);
   ("kiosk.comments.update", "kiosk.comments.update_group", Update);
   ("kiosk.comments.delete", "kiosk.comments.delete_group", Delete)]%string.

Definition binding (sub : Subscription) : string * string * Action :=
  (sub_subject sub, sub_queue sub, sub_handler sub).

Section Dispatcher.

(** Whether the connection refuses a queue subscription, given the
    subscriptions it holds. *)
Variable queueSubscribeErr :
  string -> string -> list Subscription -> option NatsErr.

(** [natsClient.QueueSubscribe(subj, queue, cb)]. *)
Definition QueueSubscribe (subj queue : string) (cb : Action) (s : System) :
    (Subscription + NatsErr) * System :=
  match queueSubscribeErr subj queue (subscriptions s) with
  | Some e => (inr e, s)
  | None =>
    let sub := {| sub_sid := nextSid s; sub_subject := subj;
                  sub_queue := queue; sub_handler := cb |} in
    (inl sub, {| subscriptions := subscriptions s ++ [sub];
                 nextSid := S (nextSid s);
                 goroutines := goroutines s;
                 stop := stop s |})
  end.

(** [sub.Unsubscribe()], its error dropped. *)
Definition Unsubscribe (sub : Subscription) (subs : list Subscription) :
    list Subscription :=
  List.filter (fun s => negb (Nat.eqb (sub_sid s) (sub_sid sub))) subs.

Definition await (ss : list Subscription) : Goroutine :=
  IRecvStop ::
  ILogDebug "CommentService: received stop signal!" ::
  map IUnsubscribe ss.

(** The [go] statement. *)
Definition go (g : Goroutine) (s : System) : System :=
  {| subscriptions := subscriptions s; nextSid := nextSid s;
     goroutines := goroutines s ++ [g]; stop := stop s |}.

Definition Start (s : System) : option NatsErr * System :=
  match QueueSubscribe "kiosk.comments.create"
          "kiosk.comments.create_group" Create s with
  | (inr e, s) => (Some e, s)
  | (inl createCommentSubscription, s) =>
  match QueueSubscribe "kiosk.comments.load"
          "kiosk.comments.load_group" Load s with
  | (inr e, s) => (Some e, s)
  | (inl loadCommentSubscription, s) =>
  match QueueSubscribe "kiosk.comments.update"
          "kiosk.comments.update_group" Update s with
  | (inr e, s) => (Some e, s)
  | (inl updateCommentSubscription, s) =>
  match QueueSubscribe "kiosk.comments.delete"
          "kiosk.comments.delete_group" Delete s with
  | (inr e, s) => (Some e, s)
  | (inl deleteCommentSubscription, s) =>
    (None,
     go (await [createCommentSubscription; loadCommentSubscription;
                updateCommentSubscription; deleteCommentSubscription]) s)
  end end end end.

End Dispatcher.

(** [Stop]: one send on the [stop] channel. *)
Definition Stop : Goroutine := [ISendStop].

Definition set_goroutine (i : nat) (g : Goroutine) (s : System) : System :=
  {| subscriptions := subscriptions s; nextSid := nextSid s;
     goroutines := <[i := g]> (goroutines s); stop := stop s |}.

Definition set_subscriptions (subs : list Subscription) (s : System) : System :=
  {| subscriptions := subs; nextSid := nextSid s;
     goroutines := goroutines s; stop := stop s |}.

Definition set_stop_len (n : nat) (s : System) : System :=
  {| subscriptions := subscriptions s; nextSid := nextSid s;
     goroutines := goroutines s;
     stop := {| chan_cap := chan_cap (stop s); chan_len := n |} |}.

(** One step of the system, by Go's rules for channels. A log or an
    unsubscribe is a step of one goroutine. A send goes into the buffer when
    there is room, and a receive takes from the buffer when it holds a value.
    Otherwise a send and a receive complete together, as one step of the
    sender and the receiver, both ready; a goroutine whose send or receive
    can do neither does not move. *)
Inductive step : System -> System -> Prop :=
| step_log s i text rest :
    goroutines s !! i = Some (ILogDebug text :: rest) ->
    step s (set_goroutine i rest s)
| step_unsubscribe s i sub rest :
    goroutines s !! i = Some (IUnsubscribe sub :: rest) ->
    step s (set_goroutine i rest
              (set_subscriptions (Unsubscribe sub (subscriptions s)) s))
| step_send_buffered s i ksend :
    goroutines s !! i = Some (ISendStop :: ksend) ->
    (chan_len (stop s) < chan_cap (stop s))%nat ->
    step s (set_goroutine i ksend (set_stop_len (S (chan_len (stop s))) s))
| step_recv_buffered s j krecv :
    goroutines s !! j = Some (IRecvStop :: krecv) ->
    (0 < chan_len (stop s))%nat ->
    step s (set_goroutine j krecv (set_stop_len (pred (chan_len (stop s))) s))
| step_stop s i j ksend krecv :
    i <> j ->
    chan_len (stop s) = 0%nat ->
    goroutines s !! i = Some (ISendStop :: ksend) ->
    goroutines s !! j = Some (IRecvStop :: krecv) ->
    step s (set_goroutine i ksend (set_goroutine j krecv s)).

(** Any number of steps. *)
Inductive steps : System -> System -> Prop :=
| steps_refl s : steps s s
| steps_step s1 s2 s3 : step s1 s2 -> steps s2 s3 -> steps s1 s3.

(** Whether a goroutine can still receive the stop signal. *)
Definition receives (g : Goroutine) : bool :=
  existsb (fun i => match i with IRecvStop => true | _ => false end) g.

Definition sends (g : Goroutine) : bool :=
  existsb (fun i => match i with ISendStop => true | _ => false end) g.

(** The number of signals a goroutine sends, and receives. *)
Definition count_sends (g : Goroutine) : nat :=
  length (List.filter (fun i => match i with ISendStop => true | _ => false end) g).

Definition count_receives (g : Goroutine) : nat :=
  length (List.filter (fun i => match i with IRecvStop => true | _ => false end) g).

(** Only the first of two goroutines has code left. *)
Definition solo (s : System) : Prop := exists g, goroutines s = [g; []].

(** The subscriptions left after unsubscribing each of [ss]. *)
Definition unsubscribe_all (ss subs : list Subscription) : list Subscription :=
  fold_left (fun subs sub => Unsubscribe sub subs) ss subs.

(** The sends, and the receives, the goroutines of a system still have to
    do. *)
Definition pending_sends (s : System) : nat :=
  list_sum (map count_sends (goroutines s)).

Definition pending_receives (s : System) : nat :=
  list_sum (map count_receives (goroutines s)).

End CommentService.

(** ** The ticket service

    The service tests drive a ticket service over a ticket repository. The
    code of both is not among the sources, so both are modelled here from the
    specification (its data model, validation rules, repository interface
    and error codes) and from the codes the tests expect. *)
Module Tickets.

Inductive TicketImportanceLevel := LOW | NORMAL | HIGH | CRITICAL.

Inductive TicketStatus := NEW | IN_PROGRESS | RESOLVED.

(** A comment row: its identifier, its ticket, and its own fields. *)
Record Comment := {
  comment_id : Z;
  comment_ticket : Z;
  comment_owner : string;
  comment_content : string;
  comment_metadata : string;
  comment_created_at : Z;
  comment_updated_at : Z
}.

(** A ticket, as a request carries it and as a load returns it. Timestamps
    are nanoseconds of UTC time. *)
Record Ticket := {
  id : Z;
  issuer : string;
  owner : string;
  subject : string;
  content : string;
  metadata : string;
  importance : TicketImportanceLevel;
  status : TicketStatus;
  issued_at : Z;
  updated_at : Z;
  comments : list Comment
}.

(** The failure taxonomy, as gRPC codes, and a failure: its code and the
    stable machine-readable name. *)
Inductive Code := InvalidArgument | NotFound | Internal.

Record Failure := { failure_code : Code; failure_name : string }.

Inductive Operation := CreateTicket | UpdateTicket.

(** The field rules the specification names. *)
Inductive Rule :=
| IdentifierRule
| IssuerRule
| OwnerRule
| SubjectRule
| ContentRule
| StatusRule.

(** The order in which the rules are said to apply to create, and the order
    of the rules of update. *)
Definition create_order : list Rule :=
  [IssuerRule; OwnerRule; SubjectRule; ContentRule; StatusRule].

Definition update_order : list Rule := [IdentifierRule; StatusRule].

(** White space of [strings.TrimSpace], within ASCII: tab, line feed,
    vertical tab, form feed, carriage return, space. *)
Definition is_space (a : ascii) : bool :=
  let n := nat_of_ascii a in
  ((9 <=? n) && (n <=? 13) || (n =? 32))%nat.

(** Empty once the white space is trimmed: no character, or white space
    only. *)
Definition blank (s : string) : bool :=
  forallb is_space (list_ascii_of_string s).

Section Validator.

(** [party_empty] is the test of emptiness the service applies to issuer
    and owner: [blank] where white space only counts as empty for them as it
    does for subject and content. The statuses a ticket may be created with
    and may be updated to are tables of the service. *)
Variable party_empty : string -> bool.
Variable creatable updatable : TicketStatus -> bool.

(** Modelled from the spec: the validator of the ticket service is not in
    the source. Whether a request breaks a rule: for create, issuer
    non-empty, owner non-empty, subject non-empty and content non-empty
    (white space only counts as empty for these two), status in the
    creatable subset; for update, identifier positive and status one of the
    allowed values. A rule an operation does not have is never broken. *)
Definition violates (op : Operation) (t : Ticket) (r : Rule) : bool :=
  match op, r with
  | CreateTicket, IssuerRule => party_empty (issuer t)
  | CreateTicket, OwnerRule => party_empty (owner t)
  | CreateTicket, SubjectRule => blank (subject t)
  | CreateTicket, ContentRule => blank (content t)
  | CreateTicket, StatusRule => negb (creatable (status t))
  | UpdateTicket, IdentifierRule => id t <=? 0
  | UpdateTicket, StatusRule => negb (updatable (status t))
  | _, _ => false
  end.

(** The code of a broken rule, as the documentation of the errors and the
    tests spell them (a rule an operation does not have has none). *)
Definition code (op : Operation) (r : Rule) : string :=
  match op, r with
  | CreateTicket, IssuerRule => "create_ticket.empty_issuer"
  | CreateTicket, OwnerRule => "create_ticket.empty_owner"
  | CreateTicket, SubjectRule => "create_ticket.empty_subject"
  | CreateTicket, ContentRule => "create_ticket.empty_content"
  | CreateTicket, StatusRule => "create_ticket.invalid_status"
  | UpdateTicket, IdentifierRule => "update_ticket.invalid_id"
  | UpdateTicket, StatusRule => "update_ticket.invalid_ticket_status"
  | _, _ => ""
  end.

Definition invalid (name : string) : Failure :=
  {| failure_code := InvalidArgument; failure_name := name |}.

(** Modelled from the spec: the validator of the ticket service is not in
    the source. Validation of a create request: the rules one after the
    other, the first broken one returned. *)
Definition validateCreate (t : Ticket) : option Failure :=
  if party_empty (issuer t) then Some (invalid "create_ticket.empty_issuer")
  else if party_empty (owner t) then Some (invalid "create_ticket.empty_owner")
  else if blank (subject t) then Some (invalid "create_ticket.empty_subject")
  else if blank (content t) then Some (invalid "create_ticket.empty_content")
  else if creatable (status t) then None
  else Some (invalid "create_ticket.invalid_status").

(** Modelled from the spec: the validator of the ticket service is not in
    the source. Validation of an update request: the identifier must be
    positive, then the status must be an allowed one; whether the row exists
    is the repository's to say. *)
Definition validateUpdate (t : Ticket) : option Failure :=
  if id t <=? 0 then Some (invalid "update_ticket.invalid_id")
  else if updatable (status t) then None
  else Some (invalid "update_ticket.invalid_ticket_status").

Definition validate (op : Operation) (t : Ticket) : option Failure :=
  match op with
  | CreateTicket => validateCreate t
  | UpdateTicket => validateUpdate t
  end.

(** The failure a list of rules, read in order, gives a request: that of the
    first rule it breaks. *)
Definition first_violated (op : Operation) (order : list Rule) (t : Ticket) :
    option Failure :=
  (fun r => invalid (code op r)) <$> List.find (violates op t) order.

End Validator.

Definition failure (c : Code) (name : string) : Failure :=
  {| failure_code := c; failure_name := name |}.

(** *** The repository and the service over it *)

(** The ticket table, the comment table, the sequence the identifiers come
    from, the clock as last read, and whether the database can be reached. *)
Record Store := {
  tickets : gmap Z Ticket;
  comment_rows : list Comment;
  next_id : Z;
  now : Z;
  online : bool
}.

Inductive RepoError := RowNotFound | StorageFailure.

(** An empty database at time [t0]; the sequence starts at 1. *)
Definition empty_store (t0 : Z) : Store :=
  {| tickets := ∅; comment_rows := []; next_id := 1; now := t0;
     online := true |}.

(** Time passes between two readings of the clock. *)
Definition advance (elapsed : positive) (s : Store) : Store :=
  {| tickets := tickets s; comment_rows := comment_rows s;
     next_id := next_id s; now := now s + Z.pos elapsed; online := online s |}.

Definition set_online (up : bool) (s : Store) : Store :=
  {| tickets := tickets s; comment_rows := comment_rows s;
     next_id := next_id s; now := now s; online := up |}.

Definition set_tickets (m : gmap Z Ticket) (s : Store) : Store :=
  {| tickets := m; comment_rows := comment_rows s;
     next_id := next_id s; now := now s; online := online s |}.

Definition comments_of (i : Z) (s : Store) : list Comment :=
  List.filter (fun c => comment_ticket c =? i) (comment_rows s).

Section Service.

Variable party_empty : string -> bool.
Variable creatable updatable : TicketStatus -> bool.

(** The fields an update writes: the stored row and the request give the
    row's new fields (a full or a partial update). *)
Variable apply_update : Ticket -> Ticket -> Ticket.

(** Modelled from the spec: the ticket repository is not in the source.
    Insert assigns the identifier, the next of the sequence, and both
    timestamps, the time of the call. *)
Definition Insert (t : Ticket) (s : Store) : (Z + RepoError) * Store :=
  if online s then
    let row := {| id := next_id s; issuer := issuer t; owner := owner t;
                  subject := subject t; content := content t;
                  metadata := metadata t; importance := importance t;
                  status := status t; issued_at := now s; updated_at := now s;
                  comments := [] |} in
    (inl (next_id s),
     {| tickets := <[next_id s := row]> (tickets s);
        comment_rows := comment_rows s; next_id := next_id s + 1;
        now := now s; online := online s |})
  else (inr StorageFailure, s).

(** Modelled from the spec: the ticket repository is not in the source.
    Load returns the row with its comments attached, or not-found. *)
Definition LoadByID (i : Z) (s : Store) : (Ticket + RepoError) * Store :=
  if online s then
    match tickets s !! i with
    | Some row =>
      (inl {| id := id row; issuer := issuer row; owner := owner row;
              subject := subject row; content := content row;
              metadata := metadata row; importance := importance row;
              status := status row; issued_at := issued_at row;
              updated_at := updated_at row; comments := comments_of i s |}, s)
    | None => (inr RowNotFound, s)
    end
  else (inr StorageFailure, s).

(** Modelled from the spec: the ticket repository is not in the source.
    Update writes the fields of the row with the request's identifier and
    refreshes its updated-at with the time of the call; the identifier and
    issued-at stay; no such row is not-found. *)
Definition UpdateRow (t : Ticket) (s : Store) : (unit + RepoError) * Store :=
  if online s then
    match tickets s !! id t with
    | Some row =>
      let changed := apply_update row t in
      let row' := {| id := id row; issuer := issuer changed;
                     owner := owner changed; subject := subject changed;
                     content := content changed; metadata := metadata changed;
                     importance := importance changed; status := status changed;
                     issued_at := issued_at row; updated_at := now s;
                     comments := [] |} in
      (inl tt, set_tickets (<[id t := row']> (tickets s)) s)
    | None => (inr RowNotFound, s)
    end
  else (inr StorageFailure, s).

(** Modelled from the spec: the ticket repository is not in the source.
    Delete removes the row, or is not-found. *)
Definition DeleteByID (i : Z) (s : Store) : (unit + RepoError) * Store :=
  if online s then
    match tickets s !! i with
    | Some _ => (inl tt, set_tickets (base.delete i (tickets s)) s)
    | None => (inr RowNotFound, s)
    end
  else (inr StorageFailure, s).

Definition repo_failure (action : string) (e : RepoError) : Failure :=
  match e with
  | RowNotFound => failure NotFound (action ++ ".not_found")
  | StorageFailure => failure Internal (action ++ ".failed")
  end.

(** Modelled from the spec: the ticket service is not in the source. Each
    call reads the clock, validates, calls the repository and maps its
    outcome: the entity or nothing on success, [<action>.not_found],
    [<action>.failed]. *)
Definition Create (elapsed : positive) (t : Ticket) (s : Store) :
    (unit + Failure) * Store :=
  let s := advance elapsed s in
  match validateCreate party_empty creatable t with
  | Some e => (inr e, s)
  | None =>
    match Insert t s with
    | (inl _, s') => (inl tt, s')
    | (inr e, s') => (inr (repo_failure "create_ticket" e), s')
    end
  end.

(** Modelled from the spec: the ticket service is not in the source. Read
    accepts a positive identifier only, then loads. *)
Definition Read (elapsed : positive) (i : Z) (s : Store) :
    (Ticket + Failure) * Store :=
  let s := advance elapsed s in
  if i <=? 0 then (inr (invalid "read_ticket.invalid_id"), s)
  else
    match LoadByID i s with
    | (inl t, s') => (inl t, s')
    | (inr e, s') => (inr (repo_failure "read_ticket" e), s')
    end.

(** Modelled from the spec: the ticket service is not in the source. Update
    validates the request, then updates the row. *)
Definition Update (elapsed : positive) (t : Ticket) (s : Store) :
    (unit + Failure) * Store :=
  let s := advance elapsed s in
  match validateUpdate updatable t with
  | Some e => (inr e, s)
  | None =>
    match UpdateRow t s with
    | (inl _, s') => (inl tt, s')
    | (inr e, s') => (inr (repo_failure "update_ticket" e), s')
    end
  end.

(** Modelled from the spec: the ticket service is not in the source. Delete
    accepts a positive identifier only, then removes the row. *)
Definition Delete (elapsed : positive) (i : Z) (s : Store) :
    (unit + Failure) * Store :=
  let s := advance elapsed s in
  if i <=? 0 then (inr (invalid "delete_ticket.invalid_id"), s)
  else
    match DeleteByID i s with
    | (inl _, s') => (inl tt, s')
    | (inr e, s') => (inr (repo_failure "delete_ticket" e), s')
    end.

(** What can happen to a store: a call of the service, or the database going
    away or coming back. *)
Inductive Call :=
| CallCreate (t : Ticket)
| CallRead (i : Z)
| CallUpdate (t : Ticket)
| CallDelete (i : Z)
| Outage (up : bool).

Definition after (elapsed : positive) (c : Call) (s : Store) : Store :=
  match c with
  | CallCreate t => (Create elapsed t s).2
  | CallRead i => (Read elapsed i s).2
  | CallUpdate t => (Update elapsed t s).2
  | CallDelete i => (Delete elapsed i s).2
  | Outage up => set_online up (advance elapsed s)
  end.

(** The stores the service can be in: an empty database, then any calls. *)
Inductive reachable : Store -> Prop :=
| reachable_empty t0 : reachable (empty_store t0)
| reachable_after s elapsed c : reachable s -> reachable (after elapsed c s).

(** What holds of every row of such a store. *)
Definition consistent (s : Store) : Prop :=
  0 < next_id s /\
  forall i row, tickets s !! i = Some row ->
    id row = i /\ 0 < i < next_id s /\
    issued_at row <= updated_at row /\ updated_at row <= now s.

End Service.

(** The tables the tests show: a ticket is created as NEW (RESOLVED is
    refused), and an update to NEW is refused (RESOLVED is accepted). The
    issuers and owners of the tests are empty or hold no white space:
    [empty_string] and [blank] agree on them. *)
Definition tested_creatable (st : TicketStatus) : bool :=
  match st with NEW => true | _ => false end.

Definition tested_updatable (st : TicketStatus) : bool :=
  match st with NEW => false | _ => true end.

Definition empty_string (s : string) : bool := String.eqb s EmptyString.

(** The ticket of the tests. *)
Definition documentation_ticket : Ticket :=
  {| id := 0; issuer := "Jibit"; owner := "09203091992";
     subject := "Documentation";
     content := "Hello, i need some help about your technical documentation.";
     metadata := "{owner_ip: 185.186.187.188}";
     importance := HIGH; status := NEW;
     issued_at := 0; updated_at := 0; comments := [] |}.

(** A request with issuer and owner both missing. *)
Definition without_parties (t : Ticket) : Ticket :=
  {| id := id t; issuer := ""; owner := ""; subject := subject t;
     content := content t; metadata := metadata t; importance := importance t;
     status := status t; issued_at := issued_at t; updated_at := updated_at t;
     comments := comments t |}.

(** The ticket of the tests with an issuer of one space. *)
Definition space_issuer_ticket : Ticket :=
  {| id := 0; issuer := " "; owner := "09203091992";
     subject := "Documentation";
     content := "Hello, i need some help about your technical documentation.";
     metadata := "{owner_ip: 185.186.187.188}";
     importance := HIGH; status := NEW;
     issued_at := 0; updated_at := 0; comments := [] |}.

(** The first request of [TestUpdate_InvalidArgument]: identifier 0, status
    NEW, nothing else set. *)
Definition update_zero_new : Ticket :=
  {| id := 0; issuer := ""; owner := ""; subject := ""; content := "";
     metadata := ""; importance := LOW; status := NEW;
     issued_at := 0; updated_at := 0; comments := [] |}.

(** The update of the tests writes the request's status. *)
Definition write_status (row request : Ticket) : Ticket :=
  {| id := id row; issuer := issuer row; owner := owner row;
     subject := subject row; content := content row; metadata := metadata row;
     importance := importance row; status := status request;
     issued_at := issued_at row; updated_at := updated_at row;
     comments := comments row |}.

(** The scenario of [TestRead] and [TestUpdate]: on an empty database the
    ticket is created, read by identifier 1, updated to RESOLVED, and read
    again, one time unit apart. *)
Definition resolved_ticket : Ticket :=
  {| id := 1; issuer := "Jibit"; owner := "09203091992";
     subject := "Documentation";
     content := "Hello, i need some help about your technical documentation.";
     metadata := "{owner_ip: 185.186.187.188}";
     importance := HIGH; status := RESOLVED;
     issued_at := 0; updated_at := 0; comments := [] |}.

Definition created : Store :=
  (Create empty_string tested_creatable 1 documentation_ticket (empty_store 0)).2.

Definition first_read : (Ticket + Failure) * Store := Read 1 1 created.

Definition updated : Store :=
  (Update tested_updatable write_status 1 resolved_ticket first_read.2).2.

Definition second_read : (Ticket + Failure) * Store := Read 1 1 updated.

End Tickets.

(** ** The assertion helpers of the service tests *)
Module ServiceTests.

(** [codes.Code] is a number; the four codes the helpers and
    [status.FromError] name. *)
Definition Code := Z.
Definition Unknown : Code := 2.
Definition InvalidArgument : Code := 3.
Definition NotFound : Code := 5.
Definition Internal : Code := 13.

(** A non-nil [error]: one that carries a gRPC status, or any other. *)
Inductive GoError :=
| GrpcError (code : Code) (message : string)
| OtherError (text : string).

(** [status.FromError] on a non-nil error: the status (code and message) and
    whether the error carried one; an error without one is [Unknown]. *)
Definition status_FromError (err : GoError) : (Code * string) * bool :=
  match err with
  | GrpcError c m => ((c, m), true)
  | OtherError text => ((Unknown, text), false)
  end.

(** What [t.Logf] is given before [t.FailNow]. *)
Inductive Log :=
| ExpectedErrorHere
| NotCompatibleWithGrpc
| ActualExpectedCode (actual expected : Code)
| ActualExpectedMessage (actual expected : string).

(** How a helper ends: it returns, or it has logged and called
    [t.FailNow]. *)
Inductive Outcome := Passed | Failed (log : Log).

(** The methods of the service under test, by the error they return. *)
Record Service (Ticket Id : Type) := {
  service_Create : Ticket -> option GoError;
  service_Read : Id -> option GoError;
  service_Update : Ticket -> option GoError
}.

Arguments service_Create {Ticket Id}.
Arguments service_Read {Ticket Id}.
Arguments service_Update {Ticket Id}.

(** The body the helpers share: the error must be non-nil, must carry a gRPC
    status, the status must have the code [required] (the log of a mismatch
    names [logged] as the expected code) and the message [message]. *)
Definition shouldReturn (required logged : Code) (err : option GoError)
    (message : string) : Outcome :=
  match err with
  | None => Failed ExpectedErrorHere
  | Some err =>
    let '(status, ok) := status_FromError err in
    if negb ok then Failed NotCompatibleWithGrpc
    else if negb (status.1 =? required)
    then Failed (ActualExpectedCode status.1 logged)
    else if negb (String.eqb status.2 message)
    then Failed (ActualExpectedMessage status.2 message)
    else Passed
  end.

Section Helpers.
Context {Ticket Id : Type}.
Variable service : Service Ticket Id.

Definition createShouldReturnInvalidArgument (ticket : Ticket) (message : string) :=
  shouldReturn InvalidArgument InvalidArgument (service_Create service ticket) message.

Definition createShouldReturnInternal (ticket : Ticket) (message : string) :=
  shouldReturn Internal InvalidArgument (service_Create service ticket) message.

Definition readShouldReturnInvalidArgument (id : Id) (message : string) :=
  shouldReturn InvalidArgument InvalidArgument (service_Read service id) message.

Definition readShouldReturnInternal (id : Id) (message : string) :=
  shouldReturn Internal Internal (service_Read service id) message.

Definition readShouldReturnNotfound (id : Id) (message : string) :=
  shouldReturn NotFound NotFound (service_Read service id) message.

Definition updateShouldReturnInvalidArgument (ticket : Ticket) (message : string) :=
  shouldReturn InvalidArgument InvalidArgument (service_Update service ticket) message.

Definition updateShouldReturnInternal (ticket : Ticket) (message : string) :=
  shouldReturn Internal InvalidArgument (service_Update service ticket) message.

Definition updateShouldReturnNotfound (ticket : Ticket) (message : string) :=
  shouldReturn NotFound NotFound (service_Update service ticket) message.

End Helpers.

(** A service whose create answers every ticket with an invalid-argument
    status. *)
Definition rejecting : Service unit unit :=
  {| service_Create := fun _ =>
       Some (GrpcError InvalidArgument "create_ticket.empty_issuer");
     service_Read := fun _ => None;
     service_Update := fun _ => None |}.

End ServiceTests.

(** ** The image build script *)
Module Deploy.

Definition newline : ascii := ascii_of_nat 10.

Fixpoint starts_with (pat s : string) : bool :=
  match pat, s with
  | EmptyString, _ => true
  | String a pat', String b s' => Ascii.eqb a b && starts_with pat' s'
  | String _ _, EmptyString => false
  end.

Fixpoint skip (n : nat) (s : string) : string :=
  match n, s with
  | S n', String _ s' => skip n' s'
  | _, _ => s
  end.

(** A character of a line of ASCII text: any but NUL, the newline and the
    bytes from 128 on. What [grep] takes for a character among those bytes
    depends on the locale: in a UTF-8 locale [.] matches no byte that is
    invalidly encoded, in the C locale it matches every byte. *)
Definition is_char (a : ascii) : bool :=
  let n := nat_of_ascii a in
  ((0 <? n) && (n <? 128) && negb (n =? 10))%nat.

Definition is_text (line : string) : bool :=
  forallb is_char (list_ascii_of_string line).

(** Whether the literal [lit] occurs in [s]. *)
Fixpoint occurs (lit s : string) : bool :=
  starts_with lit s ||
  match s with
  | EmptyString => false
  | String _ s' => occurs lit s'
  end.

(** Whether the pattern [lit.*$] matches at the start of [s]: the literal,
    then characters up to the end of the line. *)
Definition matches_here (lit s : string) : bool :=
  starts_with lit s && is_text (skip (String.length lit) s).

(** Whether [grep -E 'lit.*$'] selects the line: the pattern matches
    somewhere in it. *)
Fixpoint grep_E (lit line : string) : bool :=
  matches_here lit line ||
  match line with
  | EmptyString => false
  | String _ rest => grep_E lit rest
  end.

(** A line with its leftmost match of the literal [pat] removed
    ([sed 's/pat//']). *)
Fixpoint strip_first (pat s : string) : string :=
  if starts_with pat s then skip (String.length pat) s
  else match s with
       | EmptyString => EmptyString
       | String c s' => String c (strip_first pat s')
       end.

(** Lines as a command writes them: each followed by a newline. *)
Definition output (lines : list string) : string :=
  fold_right (fun l acc => l ++ String newline acc)%string EmptyString lines.

(** What [$(...)] keeps of an output: all but the newlines at its end. *)
Fixpoint strip_trailing_newlines (s : string) : string :=
  match s with
  | EmptyString => EmptyString
  | String c s' =>
    match strip_trailing_newlines s' with
    | EmptyString => if Ascii.eqb c newline then EmptyString
                     else String c EmptyString
    | rest => String c rest
    end
  end.

(** [VERSION=$(ls | grep -E 'kiosk-linux-.*$' | sed -E 's/kiosk-linux-v//')],
    given the lines [ls] writes (the names in the directory, one a line),
    where these are ASCII text. Where they are not the result depends on the
    locale the script runs in, and none is given. *)
Definition VERSION (listing : list string) : option string :=
  if forallb is_text listing then
    Some (strip_trailing_newlines
            (output (map (strip_first "kiosk-linux-v")
                       (List.filter (grep_E "kiosk-linux-") listing))))
  else None.

(** [IMAGE_NAME=$REGISTRY_URL/$PROJECT_NAME]. *)
Definition IMAGE_NAME (REGISTRY_URL PROJECT_NAME : string) : string :=
  (REGISTRY_URL ++ "/" ++ PROJECT_NAME)%string.

(** The [case $TRAVIS_BRANCH in ... esac]. *)
Definition IMAGE_TAG (TRAVIS_BRANCH VERSION : string) : string :=
  if String.eqb TRAVIS_BRANCH "master" then VERSION
  else if String.eqb TRAVIS_BRANCH "develop" then (VERSION ++ "-INTEGRATION")%string
  else (VERSION ++ "-DEVELOPMENT")%string.

(** Whether a string has a newline in it. *)
Fixpoint has_newline (s : string) : bool :=
  match s with
  | EmptyString => false
  | String c s' => Ascii.eqb c newline || has_newline s'
  end.

(** A build directory. *)
Definition build_directory : list string :=
  ["Dockerfile"; "README.md"; "kiosk-linux-v1.4.2"; "scripts"]%string.

End Deploy.

(** ** A small deployment, to run the handlers on

    Comments are kept in a finite map; a request is one decimal digit (the
    identifier, or the ticket of a new comment) followed, for create and
    update, by the content. Its repository honours the deadline. *)
Module Sample.
Import Context Nats CommentService.

Record SComment := { sc_id : Z; sc_content : string }.

Definition digit (b : Byte.byte) : option Z :=
  let n := Z.of_N (Byte.to_N b) in
  if (48 <=? n) && (n <=? 57) then Some (n - 48) else None.

Definition unmarshal_ID (data : bytes) : option ID :=
  match data with
  | [b] => (fun n => {| ID_ID := n |}) <$> digit b
  | _ => None
  end.

Definition unmarshal_comment (data : bytes) : option SComment :=
  match data with
  | b :: rest =>
    (fun n => {| sc_id := n; sc_content := string_of_list_byte rest |}) <$> digit b
  | [] => None
  end.

Definition validate (code : string) (c : SComment) : option string :=
  if String.eqb (sc_content c) EmptyString then Some code else None.

Abbreviation SBackend := (Backend (gmap Z SComment)).

Definition expired (ctx : Ctx) (b : SBackend) : bool :=
  match ctx_deadline ctx with
  | Some d => d <=? clock b
  | None => false
  end.

Definition insert_comment (ctx : Ctx) (c : SComment) (b : SBackend) :
    option string * SBackend :=
  if expired ctx b then (Some "create_comment.failed"%string, b)
  else
    let id := Z.of_nat (size (db b)) + 1 in
    (None, {| db := <[id := {| sc_id := id; sc_content := sc_content c |}]> (db b);
              clock := clock b + 1 |}).

Definition load_comment (ctx : Ctx) (id : Z) (b : SBackend) :
    (SComment + string) * SBackend :=
  if expired ctx b then (inr "read_comment.failed"%string, b)
  else
    match db b !! id with
    | Some c => (inl c, {| db := db b; clock := clock b + 1 |})
    | None => (inr "read_comment.not_found"%string,
               {| db := db b; clock := clock b + 1 |})
    end.

Definition update_comment (ctx : Ctx) (c : SComment) (b : SBackend) :
    option string * SBackend :=
  if expired ctx b then (Some "update_comment.failed"%string, b)
  else
    match db b !! sc_id c with
    | Some _ => (None, {| db := <[sc_id c := c]> (db b); clock := clock b + 1 |})
    | None => (Some "update_comment.not_found"%string,
               {| db := db b; clock := clock b + 1 |})
    end.

Definition delete_comment (ctx : Ctx) (id : Z) (b : SBackend) :
    option string * SBackend :=
  if expired ctx b then (Some "delete_comment.failed"%string, b)
  else
    match db b !! id with
    | Some _ => (None, {| db := base.delete id (db b); clock := clock b + 1 |})
    | None => (Some "delete_comment.not_found"%string,
               {| db := db b; clock := clock b + 1 |})
    end.

Definition marshal (t : ReplyValue SComment string) : bytes * option JsonErr :=
  match t with
  | VError e => (list_byte_of_string e, None)
  | VComment c => (list_byte_of_string (sc_content c), None)
  end.

Definition respond (msg : Msg) (data : bytes) : option NatsErr :=
  if String.eqb (Reply msg) EmptyString then Some ErrMsgNoReply else None.

Definition env : Env SComment SComment SComment SComment string (gmap Z SComment) :=
  {| json_Unmarshal_CreateCommentRequest := unmarshal_comment;
     json_Unmarshal_UpdateCommentRequest := unmarshal_comment;
     json_Unmarshal_ID := unmarshal_ID;
     CreateCommentRequest_Validate := validate "create_comment.empty_content";
     UpdateCommentRequest_Validate := validate "update_comment.empty_content";
     CreateCommentRequest_AsComment := fun r => r;
     UpdateCommentRequest_AsComment := fun r => r;
     CommentResponse_LoadFromComment := fun c => c;
     errors_InvalidRequestBody := "invalid_request_body";
     commentRepository_Insert := insert_comment;
     commentRepository_LoadByID := load_comment;
     commentRepository_Update := update_comment;
     commentRepository_DeleteByID := delete_comment;
     json_Marshal := marshal;
     msg_Respond := respond |}.

(** A fresh service: an empty table, the clock at 100 s. *)
Definition world0 : World SComment (gmap Z SComment) :=
  {| backend := {| db := ∅; clock := 100 * Time.Second |};
     nextCtx := 1; trace := [] |}.

Definition request (subject : string) (data : bytes) : Msg :=
  {| Subject := subject; Reply := "_INBOX.1"; Data := data |}.

(** A load of identifier 0, an empty body, and a new comment. *)
Definition load_zero : Msg := request "kiosk.comments.load" [Byte.x30].
Definition empty_body : Msg := request "kiosk.comments.create" [].
Definition new_comment : Msg :=
  request "kiosk.comments.create" (Byte.x31 :: list_byte_of_string "hello").

(** The same new comment, published without a reply subject. *)
Definition no_reply_subject : Msg :=
  {| Subject := "kiosk.comments.create"; Reply := "";
     Data := Byte.x31 :: list_byte_of_string "hello" |}.

(** A new comment without content. *)
Definition no_content : Msg := request "kiosk.comments.create" [Byte.x31].

(** A connection that accepts every subscription. *)
Definition accept_all (subj queue : string) (subs : list Subscription) :
    option NatsErr := None.

(** A subscription of some other component, made before the service. *)
Definition other_subscription : Subscription :=
  {| sub_sid := 0; sub_subject := "kiosk.tickets.load";
     sub_queue := "kiosk.tickets.load_group"; sub_handler := Load |}.

(** One supervisory task with nothing to unsubscribe, and [Stop] called
    twice; and the same after the first signal has passed. *)
Definition two_stops : System :=
  go Stop (go Stop (go (await []) (NewCommentService [] 1))).

Definition two_stops_after : System :=
  set_goroutine 1 [] (set_goroutine 0 (tail (await [])) two_stops).

(** A connection that refuses the subscription on the update subject. *)
Definition refuse_update (subj queue : string) (subs : list Subscription) :
    option NatsErr :=
  if String.eqb subj "kiosk.comments.update" then Some ErrBadSubscription
  else None.

End Sample.

(** * Properties of the queue handlers *)

Section HandlerProperties.
Import Context Nats CommentService.

Context {CreateCommentRequest UpdateCommentRequest CommentResponse : Type}.
Context {Comment ErrT DB : Type}.

Abbreviation Env' := (Env CreateCommentRequest UpdateCommentRequest CommentResponse
                      Comment ErrT DB).
Abbreviation World' := (World Comment DB).

Lemma drop_own_prefix {A} (l k : list A) : drop (length l) (l ++ k) = k.
Proof. induction l as [|x l IH]; simpl; auto. Qed.

Lemma emitted_reply (env : Env') (msg : Msg) t (w : World') :
  reply env msg t w =
  (tt, {| backend := backend w; nextCtx := nextCtx w;
          trace := trace w ++ [EvRespond msg (encode env t)
                                 (msg_Respond env msg (encode env t))] |}).
Proof.
  unfold reply, encode. destruct (json_Marshal env t) as [bs err]. reflexivity.
Qed.

Lemma emitted_replyNoContent (env : Env') (msg : Msg) (w : World') :
  replyNoContent env msg w =
  (tt, {| backend := backend w; nextCtx := nextCtx w;
          trace := trace w ++ [EvRespond msg [] (msg_Respond env msg [])] |}).
Proof. reflexivity. Qed.

Lemma handlerCtx_WithTimeout (w : World') :
  WithTimeout Background (5 * Time.Second) (clock (backend w)) (nextCtx w) =
  handlerCtx w.
Proof. reflexivity. Qed.

Ltac step_handler :=
  unfold handler, create, load, update, delete, Insert, LoadByID, Update_,
    DeleteByID, call, cancel, emit, context_WithTimeout, bind, ret;
  rewrite ?handlerCtx_WithTimeout; cbn [backend nextCtx trace].

Ltac split_path :=
  match goal with
  | |- context [match ?x with _ => _ end] =>
    lazymatch x with
    | json_Unmarshal_CreateCommentRequest _ _ => destruct x eqn:?
    | json_Unmarshal_UpdateCommentRequest _ _ => destruct x eqn:?
    | json_Unmarshal_ID _ _ => destruct x eqn:?
    | CreateCommentRequest_Validate _ _ => destruct x eqn:?
    | UpdateCommentRequest_Validate _ _ => destruct x eqn:?
    | commentRepository_Insert _ _ _ _ => destruct x as [[?|] ?] eqn:?
    | commentRepository_LoadByID _ _ _ _ => destruct x as [[?|?] ?] eqn:?
    | commentRepository_Update _ _ _ _ => destruct x as [[?|] ?] eqn:?
    | commentRepository_DeleteByID _ _ _ _ => destruct x as [[?|] ?] eqn:?
    end
  end.

Ltac run_paths :=
  repeat (first [ split_path
                | rewrite emitted_reply
                | rewrite emitted_replyNoContent ];
          cbn beta iota; cbn [backend nextCtx trace fst snd]).

(** One run of a handler, in full: it creates its context, makes at most one
    repository call, with that context, answers once with the reply of its
    path, and cancels the context. Without a decoded request there is no
    repository call and the backend is untouched. *)
Lemma handler_run (env : Env') (a : Action) (msg : Msg) (w : World') :
  exists calls b,
    handler env a msg w =
    (tt, {| backend := b; nextCtx := S (nextCtx w);
            trace := trace w ++
              EvWithTimeout (handlerCtx w) :: calls ++
              [EvRespond msg (reply_of env (path_of env a msg w))
                 (msg_Respond env msg (reply_of env (path_of env a msg w)));
               EvCancel (handlerCtx w)] |}) /\
    Forall (fun ev => repo_ctx ev = Some (handlerCtx w)) calls /\
    (length calls <= 1)%nat /\
    responds calls = [] /\
    (decodes env a (Data msg) = false -> calls = [] /\ b = backend w).
Proof.
  destruct a; step_handler; unfold path_of, decodes.
  all: run_paths; cbn [stored reply_of].
  all: rewrite <- ?app_assoc; cbn [app].
  all: try (eexists [], _; split; [reflexivity|];
            repeat split; auto; intros; try discriminate; fail).
  all: try (eexists [_], _; split; [reflexivity|];
            repeat split; auto; intros; try discriminate; fail).
Qed.

Lemma handler_emitted (env : Env') (a : Action) (msg : Msg) (w : World') :
  exists calls,
    emitted (handler env a msg) w =
      EvWithTimeout (handlerCtx w) :: calls ++
      [EvRespond msg (reply_of env (path_of env a msg w))
         (msg_Respond env msg (reply_of env (path_of env a msg w)));
       EvCancel (handlerCtx w)] /\
    nextCtx (exec (handler env a msg) w) = S (nextCtx w) /\
    Forall (fun ev => repo_ctx ev = Some (handlerCtx w)) calls /\
    (length calls <= 1)%nat /\
    responds calls = [] /\
    (decodes env a (Data msg) = false ->
     calls = [] /\ backend (exec (handler env a msg) w) = backend w).
Proof.
  destruct (handler_run env a msg w) as (calls & b & Hrun & Hctx & Hlen & Hresp & Hdec).
  exists calls. unfold emitted, exec. rewrite Hrun. cbn [snd trace nextCtx backend].
  rewrite drop_own_prefix. auto 10.
Qed.

Lemma responds_app (l k : list (Event Comment)) :
  responds (l ++ k) = responds l ++ responds k.
Proof. apply omap_app. Qed.

Lemma repo_calls_app (l k : list (Event Comment)) :
  repo_calls (l ++ k) = repo_calls l ++ repo_calls k.
Proof. apply omap_app. Qed.

Lemma repo_calls_Forall (calls : list (Event Comment)) (ctx : Ctx) :
  Forall (fun ev => repo_ctx ev = Some ctx) calls ->
  Forall (fun c => c = ctx) (repo_calls calls).
Proof.
  induction 1 as [|ev l Hev _ IH]; cbn; [constructor|].
  unfold repo_calls in *. cbn. rewrite Hev. cbn. constructor; auto.
Qed.

(** The shape of the reply on each path. *)
Lemma path_of_shape (env : Env') (a : Action) (msg : Msg) (w : World') :
  match path_of env a msg w with
  | Success None => a <> Load
  | Success (Some _) => a = Load
  | _ => True
  end.
Proof.
  destruct a; unfold path_of, stored; repeat case_match;
    simplify_eq; try exact I; congruence.
Qed.

Lemma published_app (l k : list (Event Comment)) :
  published (l ++ k) = published l ++ published k.
Proof. apply omap_app. Qed.

(** Where no reply is attempted none is published. *)
Lemma published_none (l : list (Event Comment)) :
  responds l = [] -> published l = [].
Proof.
  induction l as [|ev l IH]; [reflexivity|].
  destruct ev as [| | | | | |m p [e|]]; cbn; auto; discriminate.
Qed.

(** The replies one run publishes: its one attempt, if [msg.Respond]
    reported no error. *)
Lemma handler_published (env : Env') (a : Action) (msg : Msg) (w : World') :
  published (emitted (handler env a msg) w) =
  List.filter (publishes env) (responds (emitted (handler env a msg) w)).
Proof.
  destruct (handler_emitted env a msg w) as (calls & -> & _ & _ & _ & Hresp & _).
  change (EvWithTimeout (handlerCtx w) :: calls ++ ?k)
    with ([EvWithTimeout (handlerCtx w)] ++ calls ++ k).
  rewrite !published_app, !responds_app, Hresp, (published_none _ Hresp).
  cbn. unfold publishes. cbn.
  destruct (msg_Respond env msg (reply_of env (path_of env a msg w)));
    reflexivity.
Qed.

(** C1, as amended. Every run of every handler (create, load, update,
    delete), on every message and in every state, makes exactly one attempt
    to publish a reply: it calls [msg.Respond] once, on the message it
    handles. On the success path of create, update and delete the payload is
    the empty body (length zero); on the success path of load it is the
    encoded comment; on the decode, validation and storage failure paths it
    is the encoded structured error. That reply is published when
    [msg.Respond] reports no error; when it reports one, nothing is
    published. *)
Theorem handlers_attempt_exactly_one_reply
    (env : Env') (a : Action) (msg : Msg) (w : World') :
  exists payload,
    responds (emitted (handler env a msg) w) = [(msg, payload)] /\
    published (emitted (handler env a msg) w) =
      match msg_Respond env msg payload with
      | None => [(msg, payload)]
      | Some _ => []
      end /\
    match path_of env a msg w with
    | DecodeFailure =>
      payload = encode env (VError (errors_InvalidRequestBody env))
    | ValidationFailure e => payload = encode env (VError e)
    | StorageFailure e => payload = encode env (VError e)
    | Success None => a <> Load /\ payload = [] /\ length payload = 0%nat
    | Success (Some c) =>
      a = Load /\
      payload = encode env (VComment (CommentResponse_LoadFromComment env c))
    end.
Proof.
  destruct (handler_emitted env a msg w) as (calls & Hev & _ & _ & _ & Hresp & _).
  exists (reply_of env (path_of env a msg w)).
  assert (Hone : responds (emitted (handler env a msg) w) =
                 [(msg, reply_of env (path_of env a msg w))]).
  { rewrite Hev. change (EvWithTimeout (handlerCtx w) :: calls ++ ?k)
      with ([EvWithTimeout (handlerCtx w)] ++ calls ++ k).
    rewrite !responds_app, Hresp. reflexivity. }
  split; [exact Hone|]. split.
  - rewrite handler_published, Hone. cbn. unfold publishes. cbn.
    destruct (msg_Respond env msg (reply_of env (path_of env a msg w)));
      reflexivity.
  - pose proof (path_of_shape env a msg w) as Hshape.
    destruct (path_of env a msg w) as [| e | e | [c|]]; cbn; auto.
Qed.

(** C2. When the payload does not decode into the request type of the action,
    the handler (each of the four) creates its context, replies once with the
    encoded invalid-request-body error and cancels the context: it makes no
    repository call and leaves the backend as it was. *)
Theorem malformed_payload_never_reaches_repository
    (env : Env') (a : Action) (msg : Msg) (w : World') :
  decodes env a (Data msg) = false ->
  emitted (handler env a msg) w =
    [EvWithTimeout (handlerCtx w);
     EvRespond msg (encode env (VError (errors_InvalidRequestBody env)))
       (msg_Respond env msg (encode env (VError (errors_InvalidRequestBody env))));
     EvCancel (handlerCtx w)] /\
  repo_calls (emitted (handler env a msg) w) = [] /\
  backend (exec (handler env a msg) w) = backend w.
Proof.
  intros Hdec.
  destruct (handler_emitted env a msg w) as (calls & Hev & _ & _ & _ & _ & Hno).
  destruct (Hno Hdec) as [-> Hb].
  assert (Hpath : path_of env a msg w = DecodeFailure).
  { revert Hdec. destruct a; unfold decodes, path_of;
      repeat case_match; cbn; intros; try reflexivity; discriminate. }
  rewrite Hev, Hpath. cbn. auto.
Qed.

Lemma serve_nextCtx (env : Env') (reqs : list (Action * Msg)) (w : World') :
  nextCtx (serve env reqs w) = (nextCtx w + length reqs)%nat.
Proof.
  revert w. induction reqs as [|[a msg] reqs IH]; intros w; cbn.
  - lia.
  - unfold serve in IH. rewrite IH.
    destruct (handler_emitted env a msg w) as (_ & _ & -> & _). lia.
Qed.

(** C3. Every run of a handler first creates a context of its own whose
    deadline is five seconds (5,000,000,000 ns) after the clock at the start
    of that run, and every repository call of the run is given that context,
    so no repository call runs without a deadline. A later run, after any
    number of runs in between, creates a different context, and none of its
    repository calls is given the earlier one. *)
Theorem handler_deadline_is_per_invocation
    (env : Env') (a : Action) (msg : Msg) (w : World')
    (between : list (Action * Msg)) (a2 : Action) (msg2 : Msg) :
  let ctx := {| ctx_id := nextCtx w;
                ctx_deadline := Some (clock (backend w) + 5 * Time.Second) |} in
  let w2 := serve env between (exec (handler env a msg) w) in
  5 * Time.Second = 5000000000 /\
  (exists rest,
     emitted (handler env a msg) w = EvWithTimeout ctx :: rest /\
     Forall (fun c => c = ctx) (repo_calls rest)) /\
  (exists ctx2 rest2,
     emitted (handler env a2 msg2) w2 = EvWithTimeout ctx2 :: rest2 /\
     ctx_id ctx2 <> ctx_id ctx /\
     ctx_deadline ctx2 = Some (clock (backend w2) + 5 * Time.Second) /\
     Forall (fun c => c = ctx2 /\ c <> ctx) (repo_calls rest2)).
Proof.
  intros ctx w2. split; [reflexivity|]. split.
  - destruct (handler_emitted env a msg w) as (calls & Hev & _ & Hctx & _).
    eexists. split; [exact Hev|].
    rewrite repo_calls_app. cbn. rewrite app_nil_r.
    apply repo_calls_Forall. exact Hctx.
  - destruct (handler_emitted env a2 msg2 w2) as (calls & Hev & _ & Hctx & _).
    assert (Hne : ctx_id (handlerCtx w2) <> ctx_id ctx).
    { cbn. unfold w2. rewrite serve_nextCtx.
      destruct (handler_emitted env a msg w) as (_ & _ & -> & _). lia. }
    exists (handlerCtx w2). eexists. split; [exact Hev|].
    split; [exact Hne|]. split; [reflexivity|].
    rewrite repo_calls_app. cbn. rewrite app_nil_r.
    eapply Forall_impl; [apply repo_calls_Forall; exact Hctx|].
    intros c ->. split; [reflexivity|]. intros Heq. apply Hne. now rewrite Heq.
Qed.

(** C4, what the code does: load and delete call the repository with the
    identifier as decoded, whatever its sign; neither handler compares it
    with zero first. *)
Theorem load_delete_pass_identifier_unvalidated
    (env : Env') (msg : Msg) (w : World') (id : ID) :
  json_Unmarshal_ID env (Data msg) = Some id ->
  (exists rest,
     emitted (load env msg) w =
     EvWithTimeout (handlerCtx w) :: EvLoadByID (handlerCtx w) (ID_ID id) :: rest) /\
  (exists rest,
     emitted (delete env msg) w =
     EvWithTimeout (handlerCtx w) :: EvDeleteByID (handlerCtx w) (ID_ID id) :: rest).
Proof.
  intros Hid. unfold emitted, exec. split.
  all: step_handler; rewrite Hid; run_paths.
  all: rewrite <- ?app_assoc; rewrite drop_own_prefix; cbn [app]; eauto.
Qed.

Lemma encode_with_errors (env : Env') marshal_error respond_error t :
  encode (with_errors env marshal_error respond_error) t = encode env t.
Proof. reflexivity. Qed.

(** C10. Whatever errors encoding the reply and publishing it report, a
    handler does what it does when they report none: it returns, the calls
    it makes and the payload it sends are the same, the backend ends the
    same, exactly one publish is attempted, and after that attempt nothing
    follows but the cancellation of the context, so a failed publish is not
    tried again. *)
Theorem reply_errors_are_discarded (env : Env')
    (marshal_error : ReplyValue CommentResponse ErrT -> option JsonErr)
    (respond_error : Msg -> bytes -> option NatsErr)
    (a : Action) (msg : Msg) (w : World') :
  let env' := with_errors env marshal_error respond_error in
  fst (handler env' a msg w) = tt /\
  map erase_result (emitted (handler env' a msg) w) =
    map erase_result (emitted (handler env a msg) w) /\
  backend (exec (handler env' a msg) w) = backend (exec (handler env a msg) w) /\
  length (responds (emitted (handler env' a msg) w)) = 1%nat /\
  exists before payload,
    emitted (handler env' a msg) w =
      before ++ [EvRespond msg payload (respond_error msg payload);
                 EvCancel (handlerCtx w)] /\
    responds before = [].
Proof.
  intros env'. split; [now destruct (handler env' a msg w) as [[] ?]|].
  subst env'.
  unfold emitted, exec.
  destruct a; step_handler; cbn [with_errors json_Unmarshal_CreateCommentRequest
    json_Unmarshal_UpdateCommentRequest json_Unmarshal_ID
    CreateCommentRequest_Validate UpdateCommentRequest_Validate
    CreateCommentRequest_AsComment UpdateCommentRequest_AsComment
    CommentResponse_LoadFromComment errors_InvalidRequestBody
    commentRepository_Insert commentRepository_LoadByID
    commentRepository_Update commentRepository_DeleteByID].
  all: run_paths; rewrite ?encode_with_errors.
  all: rewrite <- ?app_assoc; rewrite !drop_own_prefix; cbn [app map erase_result].
  all: split; [reflexivity|]; split; [reflexivity|]; split; [reflexivity|].
  all: first [ eexists [_], _; split; [reflexivity|reflexivity]
             | eexists [_; _], _; split; [reflexivity|reflexivity] ].
Qed.

(** *** More on single runs and on sequences of runs *)

(** X1. A request that decodes but that [Validate] rejects (create and
    update) is answered with the error [Validate] returned, encoded, and with
    nothing else: no repository call is made and the backend stays as it
    was. *)
Theorem rejected_request_never_reaches_repository
    (env : Env') (a : Action) (msg : Msg) (w : World') (e : ErrT) :
  validation_error env a (Data msg) = Some e ->
  emitted (handler env a msg) w =
    [EvWithTimeout (handlerCtx w);
     EvRespond msg (encode env (VError e))
       (msg_Respond env msg (encode env (VError e)));
     EvCancel (handlerCtx w)] /\
  backend (exec (handler env a msg) w) = backend w.
Proof.
  intros Hval. unfold emitted, exec.
  destruct a; cbn [validation_error] in Hval; try discriminate.
  all: step_handler; revert Hval; run_paths; intros Hval; try discriminate.
  all: injection Hval as ->.
  all: rewrite <- ?app_assoc; rewrite drop_own_prefix; cbn [app]; auto.
Qed.

(** X2. A run makes at most one repository call, and only the call of its
    own action: create only inserts, load only loads, update only updates,
    delete only deletes. *)
Theorem handler_calls_only_its_own_method
    (env : Env') (a : Action) (msg : Msg) (w : World') :
  (length (omap repo_kind (emitted (handler env a msg) w)) <= 1)%nat /\
  Forall (fun k => k = a) (omap repo_kind (emitted (handler env a msg) w)).
Proof.
  unfold emitted, exec.
  destruct a; step_handler; run_paths.
  all: rewrite <- ?app_assoc; rewrite drop_own_prefix; cbn; split; auto; lia.
Qed.

Lemma serve_cons (env : Env') (a : Action) (msg : Msg)
    (reqs : list (Action * Msg)) (w : World') :
  serve env ((a, msg) :: reqs) w = serve env reqs (exec (handler env a msg) w).
Proof. reflexivity. Qed.

Lemma handler_trace (env : Env') (a : Action) (msg : Msg) (w : World') :
  trace (exec (handler env a msg) w) = trace w ++ emitted (handler env a msg) w.
Proof.
  destruct (handler_run env a msg w) as (calls & b & Hrun & _).
  unfold emitted, exec. rewrite Hrun. cbn [snd trace].
  now rewrite drop_own_prefix.
Qed.

Lemma serve_trace (env : Env') (reqs : list (Action * Msg)) (w : World') :
  trace (serve env reqs w) = trace w ++ served env reqs w.
Proof.
  revert w. induction reqs as [|[a msg] reqs IH]; intros w.
  - unfold served. cbn. rewrite drop_all. now rewrite app_nil_r.
  - unfold served. rewrite serve_cons, IH, handler_trace, <- app_assoc.
    now rewrite drop_own_prefix.
Qed.

(** The events of a sequence are those of its first run, then those of the
    rest. *)
Lemma served_cons (env : Env') (a : Action) (msg : Msg)
    (reqs : list (Action * Msg)) (w : World') :
  served env ((a, msg) :: reqs) w =
  emitted (handler env a msg) w ++
  served env reqs (exec (handler env a msg) w).
Proof.
  unfold served at 1. rewrite serve_cons, serve_trace, handler_trace.
  rewrite <- app_assoc. now rewrite drop_own_prefix.
Qed.

Lemma served_nil (env : Env') (w : World') : served env [] w = [].
Proof. unfold served. cbn. apply drop_all. Qed.

Lemma served_published (env : Env') (reqs : list (Action * Msg)) (w : World') :
  published (served env reqs w) =
  List.filter (publishes env) (responds (served env reqs w)).
Proof.
  revert w. induction reqs as [|[a msg] reqs IH]; intros w.
  - now rewrite served_nil.
  - rewrite served_cons, published_app, responds_app, List.filter_app.
    now rewrite IH, handler_published.
Qed.

Lemma filter_all {A} (f : A -> bool) (l : list A) :
  (forall x, f x = true) -> List.filter f l = l.
Proof.
  intros H. induction l as [|x l IH]; cbn; [reflexivity|]. now rewrite H, IH.
Qed.

(** X3. Any sequence of messages is served message by message: exactly one
    attempt to publish a reply is made per message, the k-th attempt on the
    k-th message, whatever happened to the messages before it. The replies
    published are the attempts on which [msg.Respond] reported no error; so
    where it never reports one, every message has its reply published. *)
Theorem every_message_of_a_sequence_gets_one_reply_attempt
    (env : Env') (reqs : list (Action * Msg)) (w : World') :
  map fst (responds (served env reqs w)) = map snd reqs /\
  published (served env reqs w) =
    List.filter (publishes env) (responds (served env reqs w)) /\
  ((forall msg payload, msg_Respond env msg payload = None) ->
   map fst (published (served env reqs w)) = map snd reqs).
Proof.
  assert (Hone : forall reqs w,
            map fst (responds (served env reqs w)) = map snd reqs).
  { clear reqs w. intros reqs. induction reqs as [|[a msg] reqs IH]; intros w.
    - now rewrite served_nil.
    - rewrite served_cons, responds_app, map_app, IH.
      destruct (handler_emitted env a msg w)
        as (calls & -> & _ & _ & _ & Hresp & _).
      change (EvWithTimeout (handlerCtx w) :: calls ++ ?k)
        with ([EvWithTimeout (handlerCtx w)] ++ calls ++ k).
      rewrite !responds_app, Hresp. reflexivity. }
  split; [apply Hone|]. split; [apply served_published|].
  intros Hok. rewrite served_published, filter_all; [apply Hone|].
  intros [m p]. unfold publishes. cbn. now rewrite Hok.
Qed.

Lemma created_contexts_app (l k : list (Event Comment)) :
  created_contexts (l ++ k) = created_contexts l ++ created_contexts k.
Proof. apply omap_app. Qed.

Lemma cancelled_contexts_app (l k : list (Event Comment)) :
  cancelled_contexts (l ++ k) = cancelled_contexts l ++ cancelled_contexts k.
Proof. apply omap_app. Qed.

Lemma handler_contexts (env : Env') (a : Action) (msg : Msg) (w : World') :
  created_contexts (emitted (handler env a msg) w) = [handlerCtx w] /\
  cancelled_contexts (emitted (handler env a msg) w) = [handlerCtx w].
Proof.
  unfold emitted, exec.
  destruct a; step_handler; run_paths.
  all: rewrite <- ?app_assoc; rewrite drop_own_prefix; cbn; auto.
Qed.

(** X4. No context is left open: over any sequence of messages the contexts
    cancelled are the contexts created, one per message and in the same
    order, and their identities are consecutive from the first free one, so
    no two runs share a context. *)
Theorem every_context_is_cancelled
    (env : Env') (reqs : list (Action * Msg)) (w : World') :
  cancelled_contexts (served env reqs w) = created_contexts (served env reqs w) /\
  map ctx_id (created_contexts (served env reqs w)) =
    seq (nextCtx w) (length reqs).
Proof.
  revert w. induction reqs as [|[a msg] reqs IH]; intros w.
  - rewrite served_nil. split; reflexivity.
  - rewrite served_cons, created_contexts_app, cancelled_contexts_app.
    destruct (handler_contexts env a msg w) as [-> ->].
    destruct (IH (exec (handler env a msg) w)) as [IH1 IH2].
    split; [now rewrite IH1|].
    cbn [app map length seq ctx_id handlerCtx]. rewrite IH2.
    destruct (handler_emitted env a msg w) as (_ & _ & -> & _). reflexivity.
Qed.

End HandlerProperties.

(** The malformed-payload rule at work: an empty body sent to create. *)
(** A new comment published without a reply subject: the handler stores it
    and makes its one call of [msg.Respond], which reports that the message
    has no reply subject; no reply is published. *)
Lemma message_without_reply_subject_gets_no_reply :
  Nats.Reply Sample.no_reply_subject = EmptyString /\
  CommentService.responds
    (CommentService.emitted
       (CommentService.handler Sample.env CommentService.Create
          Sample.no_reply_subject) Sample.world0) =
  [(Sample.no_reply_subject, [])] /\
  CommentService.msg_Respond Sample.env Sample.no_reply_subject [] =
  Some Nats.ErrMsgNoReply /\
  CommentService.published
    (CommentService.emitted
       (CommentService.handler Sample.env CommentService.Create
          Sample.no_reply_subject) Sample.world0) = [].
Proof. repeat split; vm_compute; reflexivity. Qed.

Lemma malformed_payload_witness :
  CommentService.decodes Sample.env CommentService.Create
    (Nats.Data Sample.empty_body) = false /\
  CommentService.repo_calls
    (CommentService.emitted
       (CommentService.handler Sample.env CommentService.Create Sample.empty_body)
       Sample.world0) = [].
Proof.
  split; [reflexivity|].
  apply (malformed_payload_never_reaches_repository Sample.env
           CommentService.Create Sample.empty_body Sample.world0).
  reflexivity.
Defined.

(** A load of identifier 0 reaches the repository. *)
Lemma load_zero_reaches_repository :
  exists rest,
    CommentService.emitted (CommentService.load Sample.env Sample.load_zero)
      Sample.world0 =
    CommentService.EvWithTimeout (CommentService.handlerCtx Sample.world0) ::
    CommentService.EvLoadByID (CommentService.handlerCtx Sample.world0) 0 :: rest.
Proof.
  apply (load_delete_pass_identifier_unvalidated Sample.env Sample.load_zero
           Sample.world0 {| CommentService.ID_ID := 0 |}).
  reflexivity.
Defined.

(** A comment without content, sent to create, is turned away before the
    repository. *)
Lemma rejected_request_witness :
  CommentService.validation_error Sample.env CommentService.Create
    (Nats.Data Sample.no_content) = Some "create_comment.empty_content"%string /\
  CommentService.backend
    (CommentService.exec
       (CommentService.handler Sample.env CommentService.Create Sample.no_content)
       Sample.world0) = CommentService.backend Sample.world0.
Proof.
  split; [reflexivity|].
  apply (rejected_request_never_reaches_repository Sample.env
           CommentService.Create Sample.no_content Sample.world0
           "create_comment.empty_content"%string).
  reflexivity.
Defined.

(** * Properties of the dispatcher *)

Section DispatcherProperties.
Import Nats CommentService.

(** C6. [Start] subscribes the four operations in the order create, load,
    update, delete, each on its subject with its queue-group constant (the
    same names in every instance of the service). If all four subscriptions
    are established it returns no error and launches the supervisory task on
    them. Otherwise it returns the error of the first subscription that
    fails, subscribes nothing after it, launches no supervisory task, and
    leaves the subscriptions it had already established on the connection. *)
Theorem Start_fails_fast
    (queueSubscribeErr : string -> string -> list Subscription -> option NatsErr)
    (s : System) :
  exists established,
    subscriptions (Start queueSubscribeErr s).2 = subscriptions s ++ established /\
    map binding established = take (length established) bindings /\
    match (Start queueSubscribeErr s).1 with
    | None =>
      map binding established = bindings /\
      goroutines (Start queueSubscribeErr s).2 =
        goroutines s ++ [await established]
    | Some e =>
      (exists subj queue a,
         bindings !! length established = Some (subj, queue, a) /\
         queueSubscribeErr subj queue (subscriptions s ++ established) = Some e) /\
      goroutines (Start queueSubscribeErr s).2 = goroutines s
    end.
Proof.
  unfold Start, QueueSubscribe.
  repeat match goal with
         | |- context [queueSubscribeErr ?a ?b ?c] =>
           lazymatch goal with
           | H : queueSubscribeErr a b c = _ |- _ => fail
           | _ => destruct (queueSubscribeErr a b c) eqn:?
           end; cbn [subscriptions nextSid goroutines fst snd go]
         end.
  all: rewrite <- ?app_assoc; cbn [app].
  1: exists []; rewrite app_nil_r.
  2-5: eexists.
  all: split; [reflexivity|]; split; [reflexivity|].
  1-4: split; [|reflexivity]; do 3 eexists; split; [reflexivity|];
    repeat match goal with
           | H : _ = Some _ |- _ =>
             rewrite <- ?app_assoc in H; cbn [app] in H; revert H
           end; intros; eassumption.
  split; reflexivity.
Qed.

Lemma steps_trans (s1 s2 s3 : System) :
  steps s1 s2 -> steps s2 s3 -> steps s1 s3.
Proof. induction 1; eauto using steps. Qed.

(** On a channel without a buffer, a goroutine that waits on the channel
    stays where it is while its partner, a goroutine ready for the other end,
    is missing. *)
Lemma partner_missing_step (ready : Goroutine -> bool) (mine : Instr)
    (s s' : System) (i : nat) (k : Goroutine) :
  (forall instr g, ready (instr :: g) = false -> ready g = false) ->
  (forall i j ks kr, goroutines s !! i = Some (ISendStop :: ks) ->
                     goroutines s !! j = Some (IRecvStop :: kr) ->
                     Forall (fun g => ready g = false) (goroutines s) -> False) ->
  mine = ISendStop \/ mine = IRecvStop ->
  step s s' ->
  stop s = make_chan 0 ->
  Forall (fun g => ready g = false) (goroutines s) ->
  goroutines s !! i = Some (mine :: k) ->
  stop s' = make_chan 0 /\
  Forall (fun g => ready g = false) (goroutines s') /\
  goroutines s' !! i = Some (mine :: k).
Proof.
  intros Htail Hpair Hmine Hstep Hchan Hall Hi.
  assert (Hrest : forall i0 instr rest,
            goroutines s !! i0 = Some (instr :: rest) -> ready rest = false).
  { intros i0 instr rest H0. eapply Htail.
    exact (proj1 (Forall_lookup _ _) Hall _ _ H0). }
  inversion Hstep as [s0 i0 text rest H0 | s0 i0 sub rest H0
                     | s0 i0 ks H0 Hroom | s0 i0 kr H0 Hfull
                     | s0 i0 j0 ks kr Hne Hlen H0 H1]; subst;
    cbn [goroutines stop set_goroutine set_subscriptions set_stop_len].
  - split; [exact Hchan|]. split; [apply Forall_insert; eauto|].
    destruct (decide (i0 = i)) as [->|Hne].
    + rewrite Hi in H0. destruct Hmine; congruence.
    + rewrite list_lookup_insert_ne; auto.
  - split; [exact Hchan|]. split; [apply Forall_insert; eauto|].
    destruct (decide (i0 = i)) as [->|Hne].
    + rewrite Hi in H0. destruct Hmine; congruence.
    + rewrite list_lookup_insert_ne; auto.
  - rewrite Hchan in Hroom. cbn in Hroom. lia.
  - rewrite Hchan in Hfull. cbn in Hfull. lia.
  - exfalso. eapply Hpair; eauto.
Qed.

Lemma receives_tail (instr : Instr) (g : Goroutine) :
  receives (instr :: g) = false -> receives g = false.
Proof. unfold receives. cbn. intros H. apply orb_false_iff in H. tauto. Qed.

Lemma sends_tail (instr : Instr) (g : Goroutine) :
  sends (instr :: g) = false -> sends g = false.
Proof. unfold sends. cbn. intros H. apply orb_false_iff in H. tauto. Qed.

(** On a channel without a buffer and with no goroutine that will ever
    receive, a sender never gets past its send. *)
Lemma sender_blocked (s s' : System) (i : nat) (k : Goroutine) :
  stop s = make_chan 0 ->
  Forall (fun g => receives g = false) (goroutines s) ->
  goroutines s !! i = Some (ISendStop :: k) ->
  steps s s' ->
  goroutines s' !! i = Some (ISendStop :: k).
Proof.
  intros Hchan Hall Hi Hsteps. revert Hchan Hall Hi.
  induction Hsteps as [s|s1 s2 s3 Hstep _ IH]; intros Hchan Hall Hi; [exact Hi|].
  assert (Hpair : forall i0 j ks kr,
            goroutines s1 !! i0 = Some (ISendStop :: ks) ->
            goroutines s1 !! j = Some (IRecvStop :: kr) ->
            Forall (fun g => receives g = false) (goroutines s1) -> False).
  { intros i0 j ks kr _ Hj Hnone.
    pose proof (proj1 (Forall_lookup _ _) Hnone _ _ Hj) as Hr. discriminate Hr. }
  destruct (partner_missing_step receives ISendStop s1 s2 i k
              receives_tail Hpair (or_introl eq_refl) Hstep Hchan Hall Hi)
    as (? & ? & ?); auto.
Qed.

(** On a channel without a buffer and with no goroutine that will ever send,
    a receiver never gets past its receive. *)
Lemma receiver_blocked (s s' : System) (j : nat) (k : Goroutine) :
  stop s = make_chan 0 ->
  Forall (fun g => sends g = false) (goroutines s) ->
  goroutines s !! j = Some (IRecvStop :: k) ->
  steps s s' ->
  goroutines s' !! j = Some (IRecvStop :: k).
Proof.
  intros Hchan Hall Hj Hsteps. revert Hchan Hall Hj.
  induction Hsteps as [s|s1 s2 s3 Hstep _ IH]; intros Hchan Hall Hj; [exact Hj|].
  assert (Hpair : forall i0 j0 ks kr,
            goroutines s1 !! i0 = Some (ISendStop :: ks) ->
            goroutines s1 !! j0 = Some (IRecvStop :: kr) ->
            Forall (fun g => sends g = false) (goroutines s1) -> False).
  { intros i0 j0 ks kr Hi0 _ Hnone.
    pose proof (proj1 (Forall_lookup _ _) Hnone _ _ Hi0) as Hr. discriminate Hr. }
  destruct (partner_missing_step sends IRecvStop s1 s2 j k
              sends_tail Hpair (or_intror eq_refl) Hstep Hchan Hall Hj)
    as (? & ? & ?); auto.
Qed.

(** The loop of [await]: each subscription is unsubscribed, in order. *)
Lemma unsubscribe_loop (ss subs : list Subscription) (n : nat) (c : Chan) :
  steps {| subscriptions := subs; nextSid := n;
           goroutines := [map IUnsubscribe ss; []]; stop := c |}
        {| subscriptions := unsubscribe_all ss subs; nextSid := n;
           goroutines := [[]; []]; stop := c |}.
Proof.
  revert subs. induction ss as [|sub ss IH]; intros subs; cbn.
  - apply steps_refl.
  - eapply steps_step; [|apply IH].
    apply (step_unsubscribe
             {| subscriptions := subs; nextSid := n;
                goroutines := [IUnsubscribe sub :: map IUnsubscribe ss; []];
                stop := c |}
             0%nat sub (map IUnsubscribe ss)).
    reflexivity.
Qed.

Ltac first_goroutine Hidx :=
  repeat match goal with
         | H : goroutines _ !! _ = Some (_ :: _) |- _ =>
           apply Hidx in H; destruct H as [-> H]
         end.

(** While only the first of two goroutines has code left, the system has at
    most one step to take, and only that goroutine moves. *)
Lemma solo_step (s s1 : System) :
  solo s -> step s s1 ->
  solo s1 /\ forall s2, step s s2 -> s2 = s1.
Proof.
  intros [g Hg] Hstep.
  assert (Hidx : forall i instr rest,
            goroutines s !! i = Some (instr :: rest) -> i = 0%nat /\ g = instr :: rest).
  { intros i instr rest H. rewrite Hg in H.
    destruct i as [|[|i]]; cbn in H; simplify_eq; auto. }
  split.
  - inversion Hstep; subst; first_goroutine Hidx; try congruence.
    all: eexists; cbn; rewrite Hg; reflexivity.
  - intros s2 Hs2.
    inversion Hstep; inversion Hs2; subst; first_goroutine Hidx;
      simplify_eq; try reflexivity; congruence.
Qed.

(** From a state where one goroutine is left, every run stays on the way to
    the state the run ends in. *)
Lemma solo_runs_meet (s final s' : System) :
  solo s -> (forall t, ~ step final t) ->
  steps s final -> steps s s' -> steps s' final.
Proof.
  intros Hsolo Hstuck Hfinal Hrun. revert Hsolo Hfinal.
  induction Hrun as [s|s1 s2 s3 Hstep _ IH]; intros Hsolo Hfinal; [exact Hfinal|].
  destruct (solo_step _ _ Hsolo Hstep) as [Hsolo2 Hdet].
  inversion Hfinal as [|? t ? Hstep' Hrest]; subst.
  - destruct (Hstuck _ Hstep).
  - rewrite (Hdet _ Hstep') in Hrest. auto.
Qed.

Lemma count_receives_loop (ss : list Subscription) :
  count_receives (map IUnsubscribe ss) = 0%nat.
Proof. induction ss; cbn; auto. Qed.

Lemma count_sends_loop (ss : list Subscription) :
  count_sends (map IUnsubscribe ss) = 0%nat.
Proof. induction ss; cbn; auto. Qed.

Lemma Unsubscribe_In (x r : Subscription) (l : list Subscription) :
  In r (Unsubscribe x l) <-> In r l /\ sub_sid r <> sub_sid x.
Proof.
  unfold Unsubscribe. rewrite List.filter_In, negb_true_iff, Nat.eqb_neq.
  reflexivity.
Qed.

(** What the loop of [await] leaves of the connection's subscriptions: those
    that carry the id of none of the subscriptions it unsubscribes. *)
Lemma unsubscribe_all_In (ss subs : list Subscription) (r : Subscription) :
  In r (unsubscribe_all ss subs) <->
  In r subs /\ forall x, In x ss -> sub_sid r <> sub_sid x.
Proof.
  revert subs. induction ss as [|x ss IH]; intros subs; cbn.
  - split; [intros H; split; [exact H|intros x []]|intros [H _]; exact H].
  - rewrite IH, Unsubscribe_In. split.
    + intros [[Hr Hx] Hss]. split; [exact Hr|].
      intros y [<-|Hy]; [exact Hx|now apply Hss].
    + intros [Hr Hall]. split; [split; [exact Hr|]|]; eauto.
Qed.

(** C7. The supervisory task [await] receives exactly once from the [stop]
    channel and [Stop] sends exactly once on it; the channel of a new service
    has no buffer. On such a channel, while no goroutine will send, the task
    stays at its receive. With the task and one [Stop], the signal passes,
    the task logs, unsubscribes every subscription it was given and ends:
    that end state is reached, nothing happens after it, and every run from
    the start stays on the way to it. In that end state none of the
    subscriptions the task was given is bound any more: the connection keeps
    exactly the subscriptions that carry the id of none of them. While no
    goroutine will receive (no supervisory task is running), a goroutine
    that calls [Stop] stays at the send for ever, whatever the others do. *)
Theorem supervisor_waits_for_one_stop_signal
    (ss subs : list Subscription) (n : nat) :
  let s0 := go Stop (go (await ss) (NewCommentService subs n)) in
  let final := {| subscriptions := unsubscribe_all ss subs; nextSid := n;
                  goroutines := [[]; []]; stop := make_chan 0 |} in
  (count_receives (await ss) = 1%nat /\ count_sends (await ss) = 0%nat /\
   count_sends Stop = 1%nat /\ chan_cap (stop (NewCommentService subs n)) = 0%nat) /\
  (forall s j s',
     stop s = make_chan 0 ->
     goroutines s !! j = Some (await ss) ->
     Forall (fun g => sends g = false) (goroutines s) ->
     steps s s' -> goroutines s' !! j = Some (await ss)) /\
  (steps s0 final /\ (forall t, ~ step final t) /\
   forall s', steps s0 s' -> steps s' final) /\
  ((forall x, In x ss -> ~ In x (subscriptions final)) /\
   (forall r, In r (subscriptions final) <->
              In r subs /\ forall x, In x ss -> sub_sid r <> sub_sid x)) /\
  (forall s i k s',
     stop s = make_chan 0 ->
     goroutines s !! i = Some (Stop ++ k) ->
     Forall (fun g => receives g = false) (goroutines s) ->
     steps s s' -> goroutines s' !! i = Some (Stop ++ k)).
Proof.
  intros s0 final.
  set (s1 := {| subscriptions := subs; nextSid := n;
                goroutines := [ILogDebug "CommentService: received stop signal!"
                                 :: map IUnsubscribe ss; []];
                stop := make_chan 0 |}).
  assert (Hsignal : step s0 s1).
  { apply (step_stop s0 1%nat 0%nat []
             (ILogDebug "CommentService: received stop signal!"
                :: map IUnsubscribe ss));
      [discriminate|reflexivity|reflexivity|reflexivity]. }
  assert (Hfinal1 : steps s1 final).
  { eapply steps_step; [|apply unsubscribe_loop].
    apply (step_log s1 0%nat "CommentService: received stop signal!"
             (map IUnsubscribe ss)). reflexivity. }
  assert (Hstuck : forall t, ~ step final t).
  { intros t Hstep.
    inversion Hstep; subst;
      match goal with
      | H : goroutines final !! ?i = Some _ |- _ =>
        destruct i as [|[|?]]; cbn in H; discriminate
      end. }
  assert (Honly : forall t, step s0 t -> t = s1).
  { intros t Hstep.
    inversion Hstep as [s i0 text rest H0 | s i0 sub rest H0
                       | s i0 ks H0 Hroom | s i0 kr H0 Hfull
                       | s i0 j0 ks kr Hne Hlen H0 H1]; subst.
    - destruct i0 as [|[|i0]]; cbn in H0; discriminate.
    - destruct i0 as [|[|i0]]; cbn in H0; discriminate.
    - cbn in Hroom. lia.
    - cbn in Hfull. lia.
    - destruct i0 as [|[|i0]]; cbn in H0; try discriminate.
      destruct j0 as [|[|j0]]; cbn in H1; try discriminate.
      simplify_eq. reflexivity. }
  split; [|split; [|split; [|split]]].
  - split; [|split; [|split; reflexivity]].
    + change (count_receives (await ss))
        with (S (count_receives (map IUnsubscribe ss))).
      now rewrite count_receives_loop.
    + change (count_sends (await ss)) with (count_sends (map IUnsubscribe ss)).
      apply count_sends_loop.
  - intros s j s' Hchan Hj Hnone Hrun. eapply receiver_blocked; eauto.
  - split; [eapply steps_step; eauto|]. split; [exact Hstuck|].
    intros s' Hrun. inversion Hrun as [|? t ? Hstep Hrest]; subst.
    + eapply steps_step; eauto.
    + rewrite (Honly _ Hstep) in Hrest.
      eapply solo_runs_meet; eauto. eexists; reflexivity.
  - split.
    + intros x Hx Hin. apply unsubscribe_all_In in Hin.
      destruct Hin as [_ Hne]. now apply (Hne x Hx).
    + intros r. apply unsubscribe_all_In.
  - intros s i k s' Hchan Hi Hnone Hrun. eapply sender_blocked; eauto.
Qed.

(** With a buffer of one the same [Stop], alone, would return: the send goes
    into the buffer. *)
Remark buffered_stop_would_return (subs : list Subscription) (n : nat) :
  step {| subscriptions := subs; nextSid := n; goroutines := [Stop];
          stop := make_chan 1 |}
       {| subscriptions := subs; nextSid := n; goroutines := [[]];
          stop := {| chan_cap := 1; chan_len := 1 |} |}.
Proof.
  apply (step_send_buffered
           {| subscriptions := subs; nextSid := n; goroutines := [Stop];
              stop := make_chan 1 |} 0%nat []); [reflexivity|cbn; lia].
Qed.

(** *** [Start] and [Stop] together *)

(** What a [Start] that returns no error leaves: four new subscriptions,
    numbered from the connection's next id, and the supervisory task on
    them. *)
Lemma Start_success
    (queueSubscribeErr : string -> string -> list Subscription -> option NatsErr)
    (s : System) :
  (Start queueSubscribeErr s).1 = None ->
  exists established,
    (Start queueSubscribeErr s).2 =
      {| subscriptions := subscriptions s ++ established;
         nextSid := nextSid s + 4;
         goroutines := goroutines s ++ [await established];
         stop := stop s |} /\
    map sub_sid established = seq (nextSid s) 4.
Proof.
  unfold Start, QueueSubscribe.
  repeat match goal with
         | |- context [queueSubscribeErr ?a ?b ?c] =>
           lazymatch goal with
           | H : queueSubscribeErr a b c = _ |- _ => fail
           | _ => destruct (queueSubscribeErr a b c) eqn:?
           end; cbn [subscriptions nextSid goroutines stop fst snd go]
         end.
  all: intros Hnone; try discriminate.
  unfold go. cbn [subscriptions nextSid goroutines stop].
  eexists. rewrite <- !app_assoc. cbn [app]. split.
  - f_equal; try reflexivity; lia.
  - reflexivity.
Qed.

(** What a [Start] that returns an error leaves of the goroutines and of the
    channel: what was there. *)
Lemma Start_failure
    (queueSubscribeErr : string -> string -> list Subscription -> option NatsErr)
    (s : System) (e : NatsErr) :
  (Start queueSubscribeErr s).1 = Some e ->
  goroutines (Start queueSubscribeErr s).2 = goroutines s /\
  stop (Start queueSubscribeErr s).2 = stop s.
Proof.
  unfold Start, QueueSubscribe.
  repeat match goal with
         | |- context [queueSubscribeErr ?a ?b ?c] =>
           lazymatch goal with
           | H : queueSubscribeErr a b c = _ |- _ => fail
           | _ => destruct (queueSubscribeErr a b c) eqn:?
           end; cbn [subscriptions nextSid goroutines stop fst snd go]
         end.
  all: intros Hsome; try discriminate; split; reflexivity.
Qed.

Lemma Unsubscribe_app (x : Subscription) (l k : list Subscription) :
  Unsubscribe x (l ++ k) = Unsubscribe x l ++ Unsubscribe x k.
Proof. unfold Unsubscribe. apply List.filter_app. Qed.

Lemma Unsubscribe_other (x : Subscription) (l : list Subscription) :
  Forall (fun s => sub_sid s <> sub_sid x) l -> Unsubscribe x l = l.
Proof.
  induction 1 as [|s l Hs _ IH]; [reflexivity|].
  unfold Unsubscribe in *. cbn. rewrite IH.
  destruct (Nat.eqb_spec (sub_sid s) (sub_sid x)); [contradiction|reflexivity].
Qed.

(** Unsubscribing [ss] removes the subscriptions that carry an id of [ss] and
    keeps those that carry none. *)
Lemma unsubscribe_all_own (ss subs rest : list Subscription) :
  (forall s x, In s subs -> In x ss -> sub_sid s <> sub_sid x) ->
  (forall r, In r rest -> exists x, In x ss /\ sub_sid r = sub_sid x) ->
  unsubscribe_all ss (subs ++ rest) = subs.
Proof.
  revert subs rest. induction ss as [|x ss IH]; intros subs rest Hsubs Hrest.
  - destruct rest as [|r rest].
    + cbn. apply app_nil_r.
    + destruct (Hrest r (or_introl eq_refl)) as (x & [] & _).
  - cbn. rewrite Unsubscribe_app, (Unsubscribe_other x subs).
    + apply IH.
      * intros s y Hs Hy. apply Hsubs; [exact Hs|now right].
      * intros r Hr. apply Unsubscribe_In in Hr. destruct Hr as [Hr Hne].
        destruct (Hrest r Hr) as (y & [<-|Hy] & Heq); [contradiction|eauto].
    + apply List.Forall_forall. intros s Hs. apply Hsubs; [exact Hs|now left].
Qed.

(** The run of one supervisory task and one [Stop] on a channel without a
    buffer. *)
Lemma await_Stop_run (ss subs : list Subscription) (n : nat) :
  let s0 := {| subscriptions := subs; nextSid := n;
               goroutines := [await ss; Stop]; stop := make_chan 0 |} in
  let final := {| subscriptions := unsubscribe_all ss subs; nextSid := n;
                  goroutines := [[]; []]; stop := make_chan 0 |} in
  steps s0 final /\ (forall t, ~ step final t) /\
  forall s', steps s0 s' -> steps s' final.
Proof.
  intros s0 final.
  set (s1 := {| subscriptions := subs; nextSid := n;
                goroutines := [ILogDebug "CommentService: received stop signal!"
                                 :: map IUnsubscribe ss; []];
                stop := make_chan 0 |}).
  assert (Hsignal : step s0 s1).
  { apply (step_stop s0 1%nat 0%nat []
             (ILogDebug "CommentService: received stop signal!"
                :: map IUnsubscribe ss));
      [discriminate|reflexivity|reflexivity|reflexivity]. }
  assert (Hfinal1 : steps s1 final).
  { eapply steps_step; [|apply unsubscribe_loop].
    apply (step_log s1 0%nat "CommentService: received stop signal!"
             (map IUnsubscribe ss)). reflexivity. }
  assert (Hstuck : forall t, ~ step final t).
  { intros t Hstep.
    inversion Hstep; subst;
      match goal with
      | H : goroutines final !! ?i = Some _ |- _ =>
        destruct i as [|[|?]]; cbn in H; discriminate
      end. }
  assert (Honly : forall t, step s0 t -> t = s1).
  { intros t Hstep.
    inversion Hstep as [s i0 text rest H0 | s i0 sub rest H0
                       | s i0 ks H0 Hroom | s i0 kr H0 Hfull
                       | s i0 j0 ks kr Hne Hlen H0 H1]; subst.
    - destruct i0 as [|[|i0]]; cbn in H0; discriminate.
    - destruct i0 as [|[|i0]]; cbn in H0; discriminate.
    - cbn in Hroom. lia.
    - cbn in Hfull. lia.
    - destruct i0 as [|[|i0]]; cbn in H0; try discriminate.
      destruct j0 as [|[|j0]]; cbn in H1; try discriminate.
      simplify_eq. reflexivity. }
  split; [eapply steps_step; eauto|]. split; [exact Hstuck|].
  intros s' Hrun. inversion Hrun as [|? t ? Hstep Hrest]; subst.
  - eapply steps_step; eauto.
  - rewrite (Honly _ Hstep) in Hrest.
    eapply solo_runs_meet; eauto. eexists; reflexivity.
Qed.

(** X5. [Start] then [Stop] gives the connection back as it was. On a new
    service whose connection numbers its subscriptions afresh, after a
    [Start] that returns no error and one [Stop], every run ends, and ends
    with the subscriptions the connection held before [Start] and with both
    the supervisory task and [Stop] finished. *)
Theorem Start_then_Stop_restores_subscriptions
    (queueSubscribeErr : string -> string -> list Subscription -> option NatsErr)
    (subs : list Subscription) (n : nat) :
  Forall (fun s => (sub_sid s < n)%nat) subs ->
  (Start queueSubscribeErr (NewCommentService subs n)).1 = None ->
  let started := go Stop (Start queueSubscribeErr (NewCommentService subs n)).2 in
  exists final,
    steps started final /\ (forall t, ~ step final t) /\
    (forall s', steps started s' -> steps s' final) /\
    subscriptions final = subs /\ goroutines final = [[]; []].
Proof.
  intros Hfresh Hok started.
  destruct (Start_success queueSubscribeErr _ Hok) as (est & Hstart & Hsids).
  subst started. rewrite Hstart.
  cbn [NewCommentService subscriptions nextSid goroutines stop go app].
  cbn [NewCommentService nextSid] in Hsids.
  destruct (await_Stop_run est (subs ++ est) (n + 4)) as (Hrun & Hstuck & Hmeet).
  eexists. split; [exact Hrun|]. split; [exact Hstuck|]. split; [exact Hmeet|].
  split; [|reflexivity]. cbn [subscriptions].
  apply unsubscribe_all_own.
  - intros s x Hs Hx.
    pose proof (proj1 (List.Forall_forall _ _) Hfresh s Hs) as Hlt.
    assert (Hin : In (sub_sid x) (map sub_sid est)) by now apply in_map.
    rewrite Hsids in Hin. apply in_seq in Hin. cbn beta in Hlt. lia.
  - intros r Hr. eauto.
Qed.

(** X6. A [Start] that failed must not be followed by [Stop]: on a new
    service, after a [Start] that returns an error, a goroutine that calls
    [Stop] can never move, and nothing else can either, so the subscriptions
    that [Start] had established stay on the connection for good. *)
Theorem Stop_after_failed_Start_blocks
    (queueSubscribeErr : string -> string -> list Subscription -> option NatsErr)
    (subs : list Subscription) (n : nat) (e : NatsErr) :
  (Start queueSubscribeErr (NewCommentService subs n)).1 = Some e ->
  let failed := (Start queueSubscribeErr (NewCommentService subs n)).2 in
  goroutines (go Stop failed) = [Stop] /\
  forall s', steps (go Stop failed) s' ->
    s' = go Stop failed /\ subscriptions s' = subscriptions failed.
Proof.
  intros Hfail failed.
  destruct (Start_failure queueSubscribeErr _ e Hfail) as [Hg Hc].
  fold failed in Hg, Hc. cbn [NewCommentService goroutines stop] in Hg, Hc.
  assert (Hgo : goroutines (go Stop failed) = [Stop]).
  { cbn [go goroutines]. now rewrite Hg. }
  split; [exact Hgo|].
  assert (Hstuck : forall t, ~ step (go Stop failed) t).
  { intros t Hstep.
    inversion Hstep as [s i0 text rest H0 | s i0 sub rest H0
                       | s i0 ks H0 Hroom | s i0 kr H0 Hfull
                       | s i0 j0 ks kr Hne Hlen H0 H1]; subst;
      rewrite Hgo in *.
    - destruct i0 as [|i0]; cbn in H0; discriminate.
    - destruct i0 as [|i0]; cbn in H0; discriminate.
    - cbn [go stop] in Hroom. rewrite Hc in Hroom. cbn in Hroom. lia.
    - destruct i0 as [|i0]; cbn in H0; discriminate.
    - destruct j0 as [|j0]; cbn in H1; discriminate. }
  intros s' Hrun. inversion Hrun as [|? t ? Hstep _]; subst.
  - split; reflexivity.
  - destruct (Hstuck _ Hstep).
Qed.

Lemma list_sum_insert (f : Goroutine -> nat) (l : list Goroutine)
    (i : nat) (x y : Goroutine) :
  l !! i = Some x ->
  (list_sum (map f (<[i := y]> l)) + f x = list_sum (map f l) + f y)%nat.
Proof.
  revert i. induction l as [|z l IH]; intros i Hi; [discriminate|].
  destruct i as [|i].
  - injection Hi as ->. simpl. lia.
  - specialize (IH i Hi). simpl in *. lia.
Qed.

Lemma count_sends_cons (instr : Instr) (g : Goroutine) :
  count_sends (instr :: g) =
  (match instr with ISendStop => 1 | _ => 0 end + count_sends g)%nat.
Proof. destruct instr; reflexivity. Qed.

Lemma count_receives_cons (instr : Instr) (g : Goroutine) :
  count_receives (instr :: g) =
  (match instr with IRecvStop => 1 | _ => 0 end + count_receives g)%nat.
Proof. destruct instr; reflexivity. Qed.

(** One step on a channel without a buffer: the channel stays empty, and a
    send is done exactly when a receive is done. *)
Lemma step_conserves_signals (s s' : System) :
  stop s = make_chan 0 -> step s s' ->
  stop s' = make_chan 0 /\
  (pending_sends s' + pending_receives s =
   pending_sends s + pending_receives s')%nat /\
  (pending_sends s' <= pending_sends s)%nat /\
  (pending_receives s' <= pending_receives s)%nat.
Proof.
  intros Hchan Hstep. unfold pending_sends, pending_receives.
  inversion Hstep as [s0 i0 text rest H0 | s0 i0 sub rest H0
                     | s0 i0 ks H0 Hroom | s0 i0 kr H0 Hfull
                     | s0 i0 j0 ks kr Hne Hlen H0 H1]; subst;
    cbn [goroutines stop set_goroutine set_subscriptions set_stop_len].
  - pose proof (list_sum_insert count_sends _ _ _ rest H0) as Hs.
    pose proof (list_sum_insert count_receives _ _ _ rest H0) as Hr.
    rewrite count_sends_cons in Hs. rewrite count_receives_cons in Hr.
    split; [exact Hchan|]. unfold Goroutine in *. lia.
  - pose proof (list_sum_insert count_sends _ _ _ rest H0) as Hs.
    pose proof (list_sum_insert count_receives _ _ _ rest H0) as Hr.
    rewrite count_sends_cons in Hs. rewrite count_receives_cons in Hr.
    split; [exact Hchan|]. unfold Goroutine in *. lia.
  - rewrite Hchan in Hroom. cbn in Hroom. lia.
  - rewrite Hchan in Hfull. cbn in Hfull. lia.
  - assert (H0' : <[j0 := kr]> (goroutines s) !! i0 = Some (ISendStop :: ks)).
    { rewrite list_lookup_insert_ne; auto. }
    pose proof (list_sum_insert count_sends _ _ _ kr H1) as Hs1.
    pose proof (list_sum_insert count_receives _ _ _ kr H1) as Hr1.
    pose proof (list_sum_insert count_sends _ _ _ ks H0') as Hs0.
    pose proof (list_sum_insert count_receives _ _ _ ks H0') as Hr0.
    rewrite count_sends_cons in Hs1, Hs0.
    rewrite count_receives_cons in Hr1, Hr0.
    split; [exact Hchan|]. unfold Goroutine in *. lia.
Qed.

(** X7. Stop signals are neither lost nor made up. On the channel without a
    buffer, along any run, as many sends have been done as receives; so when
    [Stop] has been called more often than supervisory tasks are waiting,
    a [Stop] is still at its send in every state the run can reach, and
    when fewer, a task is still at its receive. *)
Theorem stop_signals_are_conserved (s s' : System) :
  stop s = make_chan 0 ->
  steps s s' ->
  (pending_sends s' + pending_receives s =
   pending_sends s + pending_receives s')%nat /\
  ((pending_receives s < pending_sends s)%nat -> (0 < pending_sends s')%nat) /\
  ((pending_sends s < pending_receives s)%nat -> (0 < pending_receives s')%nat).
Proof.
  intros Hchan Hrun.
  assert (Hcons : stop s' = make_chan 0 /\
                  (pending_sends s' + pending_receives s =
                   pending_sends s + pending_receives s')%nat /\
                  (pending_sends s' <= pending_sends s)%nat /\
                  (pending_receives s' <= pending_receives s)%nat).
  { revert Hchan. induction Hrun as [s|s1 s2 s3 Hstep _ IH]; intros Hchan.
    - repeat split; auto.
    - destruct (step_conserves_signals _ _ Hchan Hstep) as (Hc2 & He2 & Hl2 & Hm2).
      destruct (IH Hc2) as (Hc3 & He3 & Hl3 & Hm3). repeat split; auto; lia. }
  destruct Hcons as (_ & He & Hl & Hm). repeat split; auto; lia.
Qed.

End DispatcherProperties.

(** [Start] and [Stop] on a connection that already holds a subscription:
    that subscription is what is left. *)
Lemma Start_then_Stop_witness :
  exists final,
    CommentService.steps
      (CommentService.go CommentService.Stop
         (CommentService.Start Sample.accept_all
            (CommentService.NewCommentService [Sample.other_subscription] 1)).2)
      final /\
    CommentService.subscriptions final = [Sample.other_subscription].
Proof.
  destruct (Start_then_Stop_restores_subscriptions Sample.accept_all
              [Sample.other_subscription] 1) as (final & Hrun & _ & _ & Hsubs & _).
  - repeat constructor.
  - reflexivity.
  - exists final. split; [exact Hrun|exact Hsubs].
Defined.

(** [Stop] after a [Start] that the connection refused half way. *)
Lemma Stop_after_failed_Start_witness :
  (CommentService.Start Sample.refuse_update
     (CommentService.NewCommentService [] 1)).1 = Some Nats.ErrBadSubscription /\
  CommentService.goroutines
    (CommentService.go CommentService.Stop
       (CommentService.Start Sample.refuse_update
          (CommentService.NewCommentService [] 1)).2) = [CommentService.Stop].
Proof.
  split; [reflexivity|].
  apply (Stop_after_failed_Start_blocks Sample.refuse_update [] 1
           Nats.ErrBadSubscription).
  reflexivity.
Defined.

(** [Stop] called twice for one supervisory task: after the first signal a
    send is still to be done. *)
Lemma stop_signals_witness :
  (0 < CommentService.pending_sends Sample.two_stops_after)%nat.
Proof.
  apply (stop_signals_are_conserved Sample.two_stops Sample.two_stops_after).
  - reflexivity.
  - eapply CommentService.steps_step; [|apply CommentService.steps_refl].
    apply (CommentService.step_stop Sample.two_stops 1%nat 0%nat []
             (tail (CommentService.await [])));
      [discriminate|reflexivity|reflexivity|reflexivity].
  - cbn. lia.
Defined.

(** * Properties of the ticket service *)

Section TicketProperties.
Import Tickets.

Variable party_empty : string -> bool.
Variable creatable updatable : TicketStatus -> bool.
Variable apply_update : Ticket -> Ticket -> Ticket.

Lemma validateCreate_order (empty : string -> bool) (t : Ticket) :
  validate empty creatable updatable CreateTicket t =
  first_violated empty creatable updatable CreateTicket create_order t.
Proof.
  unfold validate, validateCreate, first_violated, create_order.
  cbn [List.find violates].
  destruct (empty (issuer t)); [reflexivity|].
  destruct (empty (owner t)); [reflexivity|].
  destruct (blank (subject t)); [reflexivity|].
  destruct (blank (content t)); [reflexivity|].
  destruct (creatable (status t)); reflexivity.
Qed.

Lemma validateUpdate_order (empty : string -> bool) (t : Ticket) :
  validate empty creatable updatable UpdateTicket t =
  first_violated empty creatable updatable UpdateTicket update_order t.
Proof.
  unfold validate, validateUpdate, first_violated, update_order.
  cbn [List.find violates].
  destruct (id t <=? 0); [reflexivity|].
  destruct (updatable (status t)); reflexivity.
Qed.

(** White space only, or nothing at all: that is what [blank] accepts. *)
Lemma blank_spec (s : string) :
  blank s = true <->
  forall a, In a (list_ascii_of_string s) -> is_space a = true.
Proof. unfold blank. apply forallb_forall. Qed.

(** C5, as amended. For every create request the first rule broken in the
    order issuer, owner, subject, content, status gives the returned code; a
    request missing both issuer and owner gets the issuer-missing code; an
    issuer, an owner, a subject or a content of white space only counts as
    empty. For every update request the first rule broken in the order
    identifier, status gives the returned code. *)
Theorem first_violated_rule_wins (t : Ticket) :
  validate blank creatable updatable CreateTicket t =
    first_violated blank creatable updatable CreateTicket create_order t /\
  validate blank creatable updatable CreateTicket (without_parties t) =
    Some (invalid "create_ticket.empty_issuer") /\
  ((forall a, In a (list_ascii_of_string (issuer t)) -> is_space a = true) ->
   validate blank creatable updatable CreateTicket t =
     Some (invalid "create_ticket.empty_issuer")) /\
  (blank (issuer t) = false ->
   (forall a, In a (list_ascii_of_string (owner t)) -> is_space a = true) ->
   validate blank creatable updatable CreateTicket t =
     Some (invalid "create_ticket.empty_owner")) /\
  (blank (issuer t) = false -> blank (owner t) = false ->
   (forall a, In a (list_ascii_of_string (subject t)) -> is_space a = true) ->
   validate blank creatable updatable CreateTicket t =
     Some (invalid "create_ticket.empty_subject")) /\
  (blank (issuer t) = false -> blank (owner t) = false ->
   blank (subject t) = false ->
   (forall a, In a (list_ascii_of_string (content t)) -> is_space a = true) ->
   validate blank creatable updatable CreateTicket t =
     Some (invalid "create_ticket.empty_content")) /\
  validate blank creatable updatable UpdateTicket t =
    first_violated blank creatable updatable UpdateTicket update_order t.
Proof.
  split; [apply validateCreate_order|].
  split; [reflexivity|]. split; [|split; [|split; [|split]]].
  - intros Hi. apply blank_spec in Hi.
    unfold validate, validateCreate. now rewrite Hi.
  - intros Hi Ho. apply blank_spec in Ho.
    unfold validate, validateCreate. now rewrite Hi, Ho.
  - intros Hi Ho Hs. apply blank_spec in Hs.
    unfold validate, validateCreate. now rewrite Hi, Ho, Hs.
  - intros Hi Ho Hs Hc. apply blank_spec in Hc.
    unfold validate, validateCreate. now rewrite Hi, Ho, Hs, Hc.
  - apply validateUpdate_order.
Qed.

Abbreviation reachable' :=
  (reachable party_empty creatable updatable apply_update).

Lemma advance_consistent (elapsed : positive) (s : Store) :
  consistent s -> consistent (advance elapsed s).
Proof.
  intros [Hnext Hrows]. split; [exact Hnext|]. intros i row Hrow.
  destruct (Hrows i row Hrow) as (? & ? & ? & ?). cbn. repeat split; try lia.
Qed.

Lemma Insert_consistent (t : Ticket) (s : Store) :
  consistent s -> consistent (Insert t s).2.
Proof.
  intros [Hnext Hrows]. unfold Insert. destruct (online s); [|split; auto].
  split; cbn; [lia|]. intros i row Hrow.
  destruct (decide (next_id s = i)) as [<-|Hne].
  - rewrite lookup_insert_eq in Hrow. injection Hrow as <-. cbn. lia.
  - rewrite lookup_insert_ne in Hrow by exact Hne.
    destruct (Hrows i row Hrow) as (? & ? & ? & ?). repeat split; lia.
Qed.

Lemma UpdateRow_consistent (t : Ticket) (s : Store) :
  consistent s -> consistent (UpdateRow apply_update t s).2.
Proof.
  intros [Hnext Hrows]. unfold UpdateRow. destruct (online s); [|split; auto].
  destruct (tickets s !! id t) as [old|] eqn:Hold; [|split; auto].
  destruct (Hrows _ _ Hold) as (Hid & Hrange & Hiu & Hun).
  split; cbn; [lia|]. intros i row Hrow.
  destruct (decide (id t = i)) as [<-|Hne].
  - rewrite lookup_insert_eq in Hrow. injection Hrow as <-. cbn. lia.
  - rewrite lookup_insert_ne in Hrow by exact Hne.
    destruct (Hrows i row Hrow) as (? & ? & ? & ?). repeat split; lia.
Qed.

Lemma DeleteByID_consistent (i : Z) (s : Store) :
  consistent s -> consistent (DeleteByID i s).2.
Proof.
  intros [Hnext Hrows]. unfold DeleteByID. destruct (online s); [|split; auto].
  destruct (tickets s !! i) as [old|] eqn:Hold; [|split; auto].
  split; cbn; [lia|]. intros j row Hrow.
  destruct (decide (i = j)) as [<-|Hne].
  - rewrite lookup_delete_eq in Hrow. discriminate.
  - rewrite lookup_delete_ne in Hrow by exact Hne.
    destruct (Hrows j row Hrow) as (? & ? & ? & ?). repeat split; lia.
Qed.

Lemma LoadByID_store (i : Z) (s : Store) : (LoadByID i s).2 = s.
Proof. unfold LoadByID. repeat case_match; reflexivity. Qed.

(** Every store the service can be in is consistent. *)
Lemma reachable_consistent (s : Store) : reachable' s -> consistent s.
Proof.
  induction 1 as [t0|s elapsed c _ IH].
  - split; cbn; [lia|]. intros i row Hrow. rewrite lookup_empty in Hrow.
    discriminate.
  - apply (advance_consistent elapsed) in IH. destruct c as [t|i|t|i|up]; cbn.
    + unfold Create. destruct (validateCreate _ _ t); [exact IH|].
      pose proof (Insert_consistent t _ IH) as H.
      destruct (Insert t (advance elapsed s)) as [[?|?] ?]; exact H.
    + unfold Read. destruct (i <=? 0); [exact IH|].
      pose proof (LoadByID_store i (advance elapsed s)) as H.
      destruct (LoadByID i (advance elapsed s)) as [[?|?] ?]; cbn in *; now subst.
    + unfold Update. destruct (validateUpdate _ t); [exact IH|].
      pose proof (UpdateRow_consistent t _ IH) as H.
      destruct (UpdateRow apply_update t (advance elapsed s)) as [[?|?] ?]; exact H.
    + unfold Delete. destruct (i <=? 0); [exact IH|].
      pose proof (DeleteByID_consistent i _ IH) as H.
      destruct (DeleteByID i (advance elapsed s)) as [[?|?] ?]; exact H.
    + destruct IH as [Hnext Hrows]. split; [exact Hnext|exact Hrows].
Qed.

(** A successful read returns the stored row. *)
Lemma Read_row (elapsed : positive) (i : Z) (s s' : Store) (got : Ticket) :
  Read elapsed i s = (inl got, s') ->
  s' = advance elapsed s /\ 0 < i /\
  exists row, tickets s !! i = Some row /\
    id got = id row /\ issuer got = issuer row /\ owner got = owner row /\
    subject got = subject row /\ content got = content row /\
    metadata got = metadata row /\ importance got = importance row /\
    status got = status row /\ issued_at got = issued_at row /\
    updated_at got = updated_at row.
Proof.
  unfold Read, LoadByID. intros H.
  destruct (i <=? 0) eqn:Hi; [discriminate|].
  cbn [online advance tickets] in H. revert H.
  destruct (online s); [|discriminate].
  destruct (tickets s !! i) as [row|] eqn:Hrow; [|discriminate].
  intros H. injection H as <- <-. split; [reflexivity|]. split; [lia|].
  exists row. cbn. repeat split; reflexivity.
Qed.

(** C8. For every ticket the service inserts with success, into any store it
    can be in, a read by the identifier the repository assigned succeeds and
    returns the ticket's issuer, owner, subject, content, metadata,
    importance and status as they were given, and an issued-at and an
    updated-at that are both at or before the time of the read. *)
Theorem insert_then_load_round_trip
    (e1 e2 : positive) (t : Ticket) (s s1 : Store) :
  reachable' s ->
  Create party_empty creatable e1 t s = (inl tt, s1) ->
  exists assigned got s2,
    Insert t (advance e1 s) = (inl assigned, s1) /\
    Read e2 assigned s1 = (inl got, s2) /\
    id got = assigned /\
    issuer got = issuer t /\ owner got = owner t /\
    subject got = subject t /\ content got = content t /\
    metadata got = metadata t /\ importance got = importance t /\
    status got = status t /\
    issued_at got <= now s2 /\ updated_at got <= now s2.
Proof.
  intros Hreach Hcreate.
  destruct (reachable_consistent s Hreach) as [Hnext _].
  unfold Create in Hcreate.
  destruct (validateCreate party_empty creatable t); [discriminate|].
  unfold Insert in *. cbn [online advance] in *. revert Hcreate.
  destruct (online s) eqn:Hup; [|discriminate].
  intros Hcreate. injection Hcreate as <-.
  eexists _, _, _. split; [reflexivity|].
  unfold Read, LoadByID. cbn [advance online tickets next_id now comment_rows].
  destruct (next_id s <=? 0) eqn:Hpos; [lia|].
  rewrite lookup_insert_eq. split; [reflexivity|].
  cbn. repeat split; try reflexivity; lia.
Qed.

(** C9. In every store the service can be in, when a ticket is read, then
    updated with success, then read again, the updated-at of the second read
    is strictly after the updated-at of the first. *)
Theorem update_advances_updated_at
    (e1 e2 e3 : positive) (t : Ticket) (s s1 s2 s3 : Store)
    (before after_ : Ticket) :
  reachable' s ->
  Read e1 (id t) s = (inl before, s1) ->
  Update updatable apply_update e2 t s1 = (inl tt, s2) ->
  Read e3 (id t) s2 = (inl after_, s3) ->
  updated_at before < updated_at after_.
Proof.
  intros Hreach Hr1 Hup Hr2.
  destruct (reachable_consistent s Hreach) as [_ Hrows].
  destruct (Read_row _ _ _ _ _ Hr1) as (-> & _ & row & Hrow & Hb).
  destruct (Read_row _ _ _ _ _ Hr2) as (_ & _ & row2 & Hrow2 & Ha).
  destruct (Hrows _ _ Hrow) as (_ & _ & _ & Hnow).
  unfold Update, UpdateRow in Hup.
  destruct (validateUpdate updatable t); [discriminate|].
  cbn [advance online tickets] in Hup. revert Hup.
  destruct (online s); [|discriminate].
  rewrite Hrow. intros Hup. injection Hup as <-.
  cbn in Hrow2. rewrite lookup_insert_eq in Hrow2. injection Hrow2 as <-.
  destruct Hb as (_ & _ & _ & _ & _ & _ & _ & _ & _ & ->).
  destruct Ha as (_ & _ & _ & _ & _ & _ & _ & _ & _ & ->).
  cbn. lia.
Qed.

End TicketProperties.

(** C5, as stated, fails. The update request of the tests with identifier 0
    and status NEW breaks, of the rules issuer, owner, subject, content and
    status, the status rule only, and is answered with the invalid-identifier
    code, as [TestUpdate_InvalidArgument] expects. *)
Lemma validation_rules_counterexample :
  Tickets.first_violated Tickets.blank Tickets.tested_creatable
    Tickets.tested_updatable Tickets.UpdateTicket Tickets.create_order
    Tickets.update_zero_new =
    Some (Tickets.invalid "update_ticket.invalid_ticket_status") /\
  Tickets.validate Tickets.blank Tickets.tested_creatable
    Tickets.tested_updatable Tickets.UpdateTicket Tickets.update_zero_new =
    Some (Tickets.invalid "update_ticket.invalid_id") /\
  Tickets.validate Tickets.blank Tickets.tested_creatable
    Tickets.tested_updatable Tickets.UpdateTicket Tickets.update_zero_new <>
  Tickets.first_violated Tickets.blank Tickets.tested_creatable
    Tickets.tested_updatable Tickets.UpdateTicket Tickets.create_order
    Tickets.update_zero_new.
Proof. repeat split; try reflexivity. discriminate. Qed.

(** The rules at work on the ticket of the tests with an issuer of one
    space: it is refused for its issuer. *)
Lemma first_violated_rule_witness :
  Tickets.validate Tickets.blank Tickets.tested_creatable
    Tickets.tested_updatable Tickets.CreateTicket Tickets.space_issuer_ticket =
    Some (Tickets.invalid "create_ticket.empty_issuer").
Proof.
  apply (first_violated_rule_wins Tickets.tested_creatable
           Tickets.tested_updatable Tickets.space_issuer_ticket).
  intros a [<-|[]]. reflexivity.
Defined.

(** The round trip on the ticket of the tests: created on an empty database,
    it is read back under identifier 1. *)
Lemma round_trip_witness :
  exists got s2,
    Tickets.first_read = (inl got, s2) /\
    Tickets.id got = 1 /\
    Tickets.issuer got = Tickets.issuer Tickets.documentation_ticket /\
    Tickets.status got = Tickets.NEW /\
    Tickets.issued_at got <= Tickets.now s2 /\
    Tickets.updated_at got <= Tickets.now s2.
Proof.
  destruct (insert_then_load_round_trip Tickets.empty_string
              Tickets.tested_creatable Tickets.tested_updatable
              Tickets.write_status 1 1 Tickets.documentation_ticket
              (Tickets.empty_store 0) Tickets.created
              (Tickets.reachable_empty _ _ _ _ 0) eq_refl)
    as (assigned & got & s2 & Hins & Hread & Hid & Hissuer & _ & _ & _ & _ & _
        & Hstatus & Hissued & Hupdated).
  assert (Hone : assigned = 1) by (injection Hins as <-; reflexivity).
  rewrite Hone in Hread, Hid. exists got, s2.
  repeat split;
    [exact Hread|exact Hid|exact Hissuer|exact Hstatus|exact Hissued|exact Hupdated].
Defined.

(** The update of the tests: the ticket read, resolved, and read again. *)
Lemma update_advances_witness :
  exists before after_,
    Tickets.first_read.1 = inl before /\
    Tickets.second_read.1 = inl after_ /\
    Tickets.updated_at before < Tickets.updated_at after_.
Proof.
  eexists _, _. split; [reflexivity|]. split; [reflexivity|].
  eapply (update_advances_updated_at Tickets.empty_string
            Tickets.tested_creatable Tickets.tested_updatable
            Tickets.write_status 1 1 1 Tickets.resolved_ticket
            Tickets.created Tickets.first_read.2 Tickets.updated
            Tickets.second_read.2).
  - exact (Tickets.reachable_after _ _ _ _ _ 1
             (Tickets.CallCreate Tickets.documentation_ticket)
             (Tickets.reachable_empty _ _ _ _ 0)).
  - reflexivity.
  - reflexivity.
  - reflexivity.
Defined.

(** * Properties of the assertion helpers *)

Section HelperProperties.
Import ServiceTests.

Lemma shouldReturn_Passed (required logged : Code) (err : option GoError)
    (message : string) :
  shouldReturn required logged err message = Passed <->
  err = Some (GrpcError required message).
Proof.
  destruct err as [[c m|text]|]; cbn; [|split; discriminate..].
  destruct (Z.eqb_spec c required) as [->|Hc]; cbn.
  - destruct (String.eqb_spec m message) as [->|Hm]; cbn.
    + split; reflexivity.
    + split; [discriminate|]. intros H. injection H as H. contradiction.
  - split; [discriminate|]. intros H. injection H as H _. contradiction.
Qed.

(** X8. Each of the eight assertion helpers returns only when the call of
    the service gave an error that carries a gRPC status with exactly the
    code in the helper's name and exactly the expected message; on a nil
    error, an error without a status, another code or another message it
    fails the test. *)
Theorem helpers_accept_exactly_the_expected_status
    {Ticket Id : Type} (service : Service Ticket Id)
    (ticket : Ticket) (id : Id) (message : string) :
  (createShouldReturnInvalidArgument service ticket message = Passed <->
   service_Create service ticket = Some (GrpcError InvalidArgument message)) /\
  (createShouldReturnInternal service ticket message = Passed <->
   service_Create service ticket = Some (GrpcError Internal message)) /\
  (readShouldReturnInvalidArgument service id message = Passed <->
   service_Read service id = Some (GrpcError InvalidArgument message)) /\
  (readShouldReturnInternal service id message = Passed <->
   service_Read service id = Some (GrpcError Internal message)) /\
  (readShouldReturnNotfound service id message = Passed <->
   service_Read service id = Some (GrpcError NotFound message)) /\
  (updateShouldReturnInvalidArgument service ticket message = Passed <->
   service_Update service ticket = Some (GrpcError InvalidArgument message)) /\
  (updateShouldReturnInternal service ticket message = Passed <->
   service_Update service ticket = Some (GrpcError Internal message)) /\
  (updateShouldReturnNotfound service ticket message = Passed <->
   service_Update service ticket = Some (GrpcError NotFound message)).
Proof. repeat split; apply shouldReturn_Passed. Qed.

(** X9. When the service answers with a status of another code than
    Internal, the create and the update helper for internal failures fail
    the test with a log that names InvalidArgument as the expected code, not
    Internal, the code they require; the read helper's log names Internal. *)
Theorem internal_helpers_log_invalid_argument_as_expected
    {Ticket Id : Type} (service : Service Ticket Id)
    (ticket : Ticket) (id : Id) (message : string) (c : Code) (m : string) :
  c <> Internal ->
  (service_Create service ticket = Some (GrpcError c m) ->
   createShouldReturnInternal service ticket message =
     Failed (ActualExpectedCode c InvalidArgument)) /\
  (service_Update service ticket = Some (GrpcError c m) ->
   updateShouldReturnInternal service ticket message =
     Failed (ActualExpectedCode c InvalidArgument)) /\
  (service_Read service id = Some (GrpcError c m) ->
   readShouldReturnInternal service id message =
     Failed (ActualExpectedCode c Internal)).
Proof.
  intros Hc.
  unfold createShouldReturnInternal, updateShouldReturnInternal,
    readShouldReturnInternal.
  repeat split; intros ->; cbn;
    destruct (Z.eqb_spec c Internal); try contradiction; reflexivity.
Qed.

End HelperProperties.

(** A service that answers create with an invalid-argument status, checked
    by the helper for internal failures: the log reads the same code
    twice. *)
Lemma internal_helper_log_witness :
  ServiceTests.createShouldReturnInternal ServiceTests.rejecting tt
    "create_ticket.failed" =
  ServiceTests.Failed
    (ServiceTests.ActualExpectedCode ServiceTests.InvalidArgument
       ServiceTests.InvalidArgument).
Proof.
  apply (internal_helpers_log_invalid_argument_as_expected
           ServiceTests.rejecting tt tt "create_ticket.failed"
           ServiceTests.InvalidArgument "create_ticket.empty_issuer").
  - discriminate.
  - reflexivity.
Defined.

(** * Properties of the image build script *)

Section DeployProperties.
Import Deploy.

Lemma append_inj (v a b : string) : (v ++ a = v ++ b)%string -> a = b.
Proof.
  induction v as [|c v IH]; [auto|].
  change (String c (v ++ a) = String c (v ++ b) -> a = b)%string.
  intros H. injection H as H. auto.
Qed.

Lemma append_empty (v : string) : (v ++ "")%string = v.
Proof.
  induction v as [|c v IH]; [reflexivity|].
  change (String c (v ++ "") = String c v)%string. now f_equal.
Qed.

Lemma starts_with_append (v a : string) : starts_with v (v ++ a) = true.
Proof.
  induction v as [|c v IH]; [reflexivity|].
  change (Ascii.eqb c c && starts_with v (v ++ a) = true)%string.
  now rewrite Ascii.eqb_refl, IH.
Qed.

Lemma append_same (v a : string) : (v ++ a)%string = v -> a = EmptyString.
Proof.
  intros H. apply (append_inj v a EmptyString). now rewrite append_empty.
Qed.

Lemma starts_with_refl (v : string) : starts_with v v = true.
Proof. rewrite <- (append_empty v) at 2. apply starts_with_append. Qed.

(** X10. The tag depends on the branch in three ways that never meet: for
    any version, only the branch master gets the version itself as tag, only
    the branch develop gets the tag of develop, and every tag starts with
    the version. *)
Theorem image_tag_tells_the_branches_apart (TRAVIS_BRANCH version : string) :
  (IMAGE_TAG TRAVIS_BRANCH version = version <-> TRAVIS_BRANCH = "master"%string) /\
  (IMAGE_TAG TRAVIS_BRANCH version = IMAGE_TAG "develop" version <->
   TRAVIS_BRANCH = "develop"%string) /\
  starts_with version (IMAGE_TAG TRAVIS_BRANCH version) = true.
Proof.
  unfold IMAGE_TAG. cbn [String.eqb Ascii.eqb Bool.eqb].
  destruct (String.eqb_spec TRAVIS_BRANCH "master") as [->|Hm].
  - cbn. repeat split; try discriminate; auto using starts_with_refl.
    intros H. symmetry in H. apply append_same in H. discriminate.
  - destruct (String.eqb_spec TRAVIS_BRANCH "develop") as [->|Hd].
    + repeat split; try discriminate; auto using starts_with_append.
      intros H. apply append_same in H. discriminate.
    + repeat split; try contradiction; auto using starts_with_append.
      * intros H. apply append_same in H. discriminate.
      * intros H. apply append_inj in H. discriminate.
Qed.

Lemma is_text_skip (n : nat) (s : string) :
  is_text s = true -> is_text (skip n s) = true.
Proof.
  revert s. induction n as [|n IH]; intros [|c s] H; cbn; auto.
  apply IH. unfold is_text in *. cbn in H. now apply andb_true_iff in H.
Qed.

(** A line [grep] selects has the literal in it; on a line of ASCII text the
    rest of the pattern, [.*$], always matches, and [grep] selects the lines
    that have the literal in them. *)
Lemma grep_E_occurs (lit s : string) :
  grep_E lit s = true -> occurs lit s = true.
Proof.
  induction s as [|c s IH]; cbn; unfold matches_here.
  - rewrite orb_false_r. intros H. apply andb_true_iff in H. now rewrite (proj1 H).
  - intros H. apply orb_true_iff in H. destruct H as [H|H].
    + apply andb_true_iff in H. now rewrite (proj1 H).
    + rewrite (IH H). apply orb_true_r.
Qed.

Lemma grep_E_text (lit s : string) :
  is_text s = true -> grep_E lit s = occurs lit s.
Proof.
  induction s as [|c s IH]; intros H; cbn; unfold matches_here.
  - now rewrite (is_text_skip _ _ H), andb_true_r.
  - rewrite (is_text_skip _ _ H), andb_true_r, IH; [reflexivity|].
    unfold is_text in *. cbn in H. now apply andb_true_iff in H.
Qed.

Lemma filter_nothing (lit : string) (l : list string) :
  (forall f, In f l -> occurs lit f = false) ->
  List.filter (grep_E lit) l = [].
Proof.
  induction l as [|f l IH]; intros H; cbn; [reflexivity|].
  destruct (grep_E lit f) eqn:Hf.
  - apply grep_E_occurs in Hf. rewrite (H f (or_introl eq_refl)) in Hf.
    discriminate.
  - apply IH. intros g Hg. apply H. now right.
Qed.

Lemma is_text_no_newline (s : string) :
  is_text s = true -> has_newline s = false.
Proof.
  unfold is_text. induction s as [|c s IH]; [reflexivity|]. cbn.
  intros H. apply andb_true_iff in H. destruct H as [Hc Hs].
  rewrite (IH Hs), orb_false_r. apply Ascii.eqb_neq. intros ->.
  discriminate.
Qed.

Lemma strip_trailing_newline_of_line (line : string) :
  has_newline line = false ->
  strip_trailing_newlines (line ++ String newline EmptyString) = line.
Proof.
  induction line as [|c line IH]; intros H.
  - reflexivity.
  - cbn in H. apply orb_false_iff in H. destruct H as [Hc Hline].
    change (match strip_trailing_newlines (line ++ String newline EmptyString) with
            | EmptyString => if Ascii.eqb c newline then EmptyString
                             else String c EmptyString
            | rest => String c rest
            end = String c line)%string.
    rewrite (IH Hline). destruct line; [now rewrite Hc|reflexivity].
Qed.

(** X11. The version comes out of the binary's name: when the names [ls]
    writes are ASCII text, one of them is of the form kiosk-linux-v followed
    by a version, and no other has kiosk-linux- in it, the script's version
    is that version, with nothing added, and on master that version is the
    tag. *)
Theorem version_is_read_off_the_binary
    (before after_ : list string) (version : string) :
  forallb is_text (before ++ ("kiosk-linux-v" ++ version)%string :: after_)
    = true ->
  (forall f, In f (before ++ after_) -> occurs "kiosk-linux-" f = false) ->
  VERSION (before ++ ("kiosk-linux-v" ++ version)%string :: after_)
    = Some version /\
  IMAGE_TAG "master" <$>
    VERSION (before ++ ("kiosk-linux-v" ++ version)%string :: after_)
    = Some version.
Proof.
  intros Htext Hother.
  assert (Hname : is_text ("kiosk-linux-v" ++ version) = true).
  { rewrite forallb_app in Htext. apply andb_true_iff in Htext.
    destruct Htext as [_ Htext]. cbn [forallb] in Htext.
    now apply andb_true_iff in Htext. }
  assert (Hv : VERSION (before ++ ("kiosk-linux-v" ++ version)%string :: after_)
               = Some version).
  { unfold VERSION. rewrite Htext. f_equal.
    rewrite List.filter_app. cbn [List.filter].
    rewrite (filter_nothing _ before), (filter_nothing _ after_).
    - rewrite (grep_E_text _ _ Hname).
      change (occurs "kiosk-linux-" ("kiosk-linux-v" ++ version)) with true.
      cbn [app map output fold_right].
      change (strip_first "kiosk-linux-v" ("kiosk-linux-v" ++ version))
        with version.
      apply strip_trailing_newline_of_line, is_text_no_newline.
      apply (is_text_skip 13 _ Hname).
    - intros f Hf. apply Hother, in_or_app. now right.
    - intros f Hf. apply Hother, in_or_app. now left. }
  split; [exact Hv|]. now rewrite Hv.
Qed.

End DeployProperties.

(** The version of the binary in a build directory. *)
Lemma version_witness :
  Deploy.VERSION Deploy.build_directory = Some "1.4.2"%string.
Proof.
  apply (version_is_read_off_the_binary ["Dockerfile"; "README.md"]%string
           ["scripts"]%string "1.4.2").
  - reflexivity.
  - intros f [<-|[<-|[<-|[]]]]; reflexivity.
Defined.

(** * The scenarios, run *)

(** A new comment sent to create: one insert under the run's context, the
    empty reply, the cancellation. *)
Example create_new_comment_run :
  CommentService.emitted
    (CommentService.create Sample.env Sample.new_comment) Sample.world0 =
  let ctx := {| Context.ctx_id := 1;
                Context.ctx_deadline := Some 105000000000 |} in
  [CommentService.EvWithTimeout ctx;
   CommentService.EvInsert ctx
     {| Sample.sc_id := 1; Sample.sc_content := "hello" |};
   CommentService.EvRespond Sample.new_comment [] None;
   CommentService.EvCancel ctx].
Proof. reflexivity. Qed.

(** A load of identifier 0: the repository is asked for row 0 and its answer,
    not a validation failure, is the reply. *)
Example load_zero_run :
  CommentService.emitted
    (CommentService.load Sample.env Sample.load_zero) Sample.world0 =
  let ctx := {| Context.ctx_id := 1;
                Context.ctx_deadline := Some 105000000000 |} in
  [CommentService.EvWithTimeout ctx;
   CommentService.EvLoadByID ctx 0;
   CommentService.EvRespond Sample.load_zero
     (list_byte_of_string "read_comment.not_found") None;
   CommentService.EvCancel ctx].
Proof. reflexivity. Qed.

(** A closed connection and a failing encoder: still one publish, of the
    bytes the encoder gave, and nothing after it but the cancellation. *)
Example failing_publish_run :
  CommentService.emitted
    (CommentService.create
       (CommentService.with_errors Sample.env
          (fun _ => Some CommentService.UnsupportedValue)
          (fun _ _ => Some Nats.ErrConnectionClosed))
       Sample.empty_body) Sample.world0 =
  let ctx := {| Context.ctx_id := 1;
                Context.ctx_deadline := Some 105000000000 |} in
  [CommentService.EvWithTimeout ctx;
   CommentService.EvRespond Sample.empty_body
     (list_byte_of_string "invalid_request_body")
     (Some Nats.ErrConnectionClosed);
   CommentService.EvCancel ctx].
Proof. reflexivity. Qed.

(** The codes of [TestCreate_InvalidArgument], [TestUpdate_InvalidArgument]
    and of a subject of one space and a content of one tab. *)
Example tested_codes :
  let validate := Tickets.validate Tickets.blank Tickets.tested_creatable
                    Tickets.tested_updatable in
  validate Tickets.CreateTicket Tickets.documentation_ticket = None /\
  validate Tickets.CreateTicket
    (Tickets.without_parties Tickets.documentation_ticket) =
    Some (Tickets.invalid "create_ticket.empty_issuer") /\
  validate Tickets.UpdateTicket Tickets.update_zero_new =
    Some (Tickets.invalid "update_ticket.invalid_id") /\
  validate Tickets.UpdateTicket Tickets.resolved_ticket = None /\
  Tickets.blank " " = true /\
  Tickets.blank (String (ascii_of_nat 9) EmptyString) = true /\
  Tickets.blank "Documentation" = false.
Proof. repeat split; reflexivity. Qed.

(** [Start] on a connection that refuses the update subject: the error comes
    back, create and load stay subscribed, no goroutine is launched. *)
Example start_refused_run :
  CommentService.Start Sample.refuse_update
    (CommentService.NewCommentService [] 1) =
  (Some Nats.ErrBadSubscription,
   {| CommentService.subscriptions :=
        [{| CommentService.sub_sid := 1;
            CommentService.sub_subject := "kiosk.comments.create";
            CommentService.sub_queue := "kiosk.comments.create_group";
            CommentService.sub_handler := CommentService.Create |};
         {| CommentService.sub_sid := 2;
            CommentService.sub_subject := "kiosk.comments.load";
            CommentService.sub_queue := "kiosk.comments.load_group";
            CommentService.sub_handler := CommentService.Load |}];
      CommentService.nextSid := 3;
      CommentService.goroutines := [];
      CommentService.stop := CommentService.make_chan 0 |}).
Proof. reflexivity. Qed.
